(** * CryptoVeilGame: a shallow embedding of contracts/CryptoVeilGame.sol

    The contract keeps, for every player address, a joined flag and a pair of
    encrypted 32-bit coordinates on a 10x10 board.  All arithmetic on the
    coordinates goes through the FHE library: the contract never sees a
    plaintext, it only asks the coprocessor to compute on ciphertexts.

    Modelling choices.
    - An [euint32] is modelled by the plaintext it encrypts, a [Z] in
      [0, 2^32); every FHE operation writes its wrap-around out.  An [ebool]
      is modelled by the [bool] it encrypts.
    - What the chain can observe of an FHE computation is the sequence of
      operations requested from the coprocessor, not their operands.  Every
      FHE call therefore appends its operation kind to [oplog].
    - The position engine ([_applyStep] and the functions around it) is
      written against the interface [FHE.Lib], in which the ciphertext types
      are abstract, as they are to the contract: it cannot inspect or branch
      on a ciphertext.  [FHE.clear] is the reference implementation on
      plaintexts, [Symbolic.circuits] builds the circuit instead.
    - The verification of an encrypted input belongs to the library's input
      verifier: its decision is taken from the environment
      ([inputVerifier]); an empty proof is never accepted.
    - [arith] is ghost state: the operands and results of the additions,
      subtractions and remainders the coprocessor evaluates, in the clear.
      Nothing on chain shows it; it is there to state facts about them.
    - Storage, the event log, the coprocessor's random stream and the
      logs are threaded through a state-and-revert monad [Tx].
    - A transaction is atomic: [transact] keeps the old world on a revert. *)

From Stdlib Require Import ZArith Lia List String Ascii.
From Stdlib Require Import DecimalString DecimalZ.
From Stdlib.Strings Require Import Byte.
From stdpp Require Import gmap strings.
Import ListNotations.

Open Scope Z_scope.

(** ** Machine integers *)

Definition UINT32_MODULUS : Z := 2 ^ 32.

(** Reduction of an integer to its 32-bit unsigned representative. *)
Definition wrap32 (v : Z) : Z := v mod UINT32_MODULUS.

Definition is_uint32 (v : Z) : Prop := 0 <= v < UINT32_MODULUS.

(** ** Data model *)

Abbreviation address := N.
Abbreviation euint32 := Z.
Abbreviation ebool := bool.
Abbreviation externalEuint32 := Z.
Abbreviation bytes := (list byte).

(** struct Position { euint32 x; euint32 y; } *)
Record Position : Type := mkPosition { x : euint32; y : euint32 }.

(** What an uninitialised storage slot reads as. *)
Definition zeroPosition : Position := {| x := 0; y := 0 |}.

Inductive Event : Type :=
| PlayerJoined (player : address) (ex ey : euint32)
| PlayerMoved (player : address) (ex ey : euint32).

(** The kinds of request the contract sends to the FHE coprocessor.  Scalar
    (plaintext) operands are public and recorded; encrypted operands are not. *)
Inductive FheOp : Type :=
| OpTrivialEncrypt (v : Z)
| OpRand
| OpVerifyInput
| OpAdd
| OpSub
| OpRem (modulus : Z)
| OpEq
| OpLe
| OpGe
| OpSelect
| OpAllowThis
| OpAllow (who : address).

(** One addition, subtraction or remainder as the coprocessor evaluates it:
    the plaintexts of its operands and of its result. *)
Record Arith : Type := mkArith {
  arithOp : FheOp;
  arithLeft : Z;
  arithRight : Z;
  arithResult : Z
}.

(** The contract's storage together with the part of its environment it
    talks to.  [events], [oplog] and [arith] hold the newest entry first. *)
#[projections(primitive)]
Record World : Type := mkWorld {
  _positions : gmap address Position;
  _hasJoined : gmap address bool;
  events : list Event;
  entropy : nat -> Z;
  drawn : nat;
  oplog : list FheOp;
  inputVerifier : address -> externalEuint32 -> bytes -> bool;
  arith : list Arith
}.

(** The chronological views of the two logs. *)
Definition trace (w : World) : list FheOp := rev (oplog w).
Definition emitted (w : World) : list Event := rev (events w).

(** ** The transaction monad *)

Inductive Result (A : Type) : Type :=
| Ok (a : A)
| Revert (reason : string).
Arguments Ok {A} a.
Arguments Revert {A} reason.

Definition Tx (A : Type) : Type := World -> Result (A * World).

Definition ret {A} (a : A) : Tx A := fun w => Ok (a, w).

Definition bind {A B} (m : Tx A) (k : A -> Tx B) : Tx B :=
  fun w =>
    match m w with
    | Ok (a, w') => k a w'
    | Revert r => Revert r
    end.

Notation "'let!' v ':=' m 'in' k" := (bind m (fun v => k))
  (at level 10, v name, m at level 100, k at level 200).
Notation "m ';;;' k" := (bind m (fun _ => k))
  (at level 100, k at level 200, right associativity).

Definition require (cond : bool) (reason : string) : Tx unit :=
  fun w => if cond then Ok (tt, w) else Revert reason.

Definition valueOf {A} (r : Result (A * World)) : option A :=
  match r with Ok (a, _) => Some a | Revert _ => None end.

(** *** Storage access *)

Definition load_hasJoined (player : address) : Tx bool :=
  fun w => Ok (default false (_hasJoined w !! player), w).

Definition store_hasJoined (player : address) (b : bool) : Tx unit :=
  fun w => Ok (tt, mkWorld (_positions w) (<[player := b]> (_hasJoined w))
                           (events w) (entropy w) (drawn w) (oplog w)
                           (inputVerifier w) (arith w)).

Definition load_position (player : address) : Tx Position :=
  fun w => Ok (default zeroPosition (_positions w !! player), w).

Definition store_position (player : address) (p : Position) : Tx unit :=
  fun w => Ok (tt, mkWorld (<[player := p]> (_positions w)) (_hasJoined w)
                           (events w) (entropy w) (drawn w) (oplog w)
                           (inputVerifier w) (arith w)).

(** Field-wise access through a [Position storage] pointer. *)
Definition load_x (player : address) : Tx euint32 :=
  let! p := load_position player in ret (x p).

Definition load_y (player : address) : Tx euint32 :=
  let! p := load_position player in ret (y p).

Definition store_x (player : address) (v : euint32) : Tx unit :=
  let! p := load_position player in
  store_position player {| x := v; y := y p |}.

Definition store_y (player : address) (v : euint32) : Tx unit :=
  let! p := load_position player in
  store_position player {| x := x p; y := v |}.

Definition emit (e : Event) : Tx unit :=
  fun w => Ok (tt, mkWorld (_positions w) (_hasJoined w)
                           (e :: events w) (entropy w) (drawn w) (oplog w)
                           (inputVerifier w) (arith w)).

(** ** The FHE library, as far as the contract uses it

    Semantics of the operations on [euint32]: unsigned, wrapping modulo
    2^32, remainder by a non-zero plaintext scalar; comparisons yield an
    [ebool]; [select] is the homomorphic multiplexer. *)

Definition request (op : FheOp) : Tx unit :=
  fun w => Ok (tt, mkWorld (_positions w) (_hasJoined w)
                           (events w) (entropy w) (drawn w) (op :: oplog w)
                           (inputVerifier w) (arith w)).

(** A request whose evaluation is also entered in the ghost log. *)
Definition compute (op : FheOp) (a b r : Z) : Tx unit :=
  fun w => Ok (tt, mkWorld (_positions w) (_hasJoined w)
                           (events w) (entropy w) (drawn w) (op :: oplog w)
                           (inputVerifier w) (mkArith op a b r :: arith w)).

(** The input verifier's decision, read from the environment. *)
Definition verifyInput (sender : address) (input : externalEuint32)
    (inputProof : bytes) : Tx bool :=
  fun w => Ok (inputVerifier w sender input inputProof, w).

Definition EmptyInputProof : string := "EmptyInputProof".
Definition InputRejected : string := "Input verification failed".

Module FHE.

(** The operations of the position engine.  To the contract a ciphertext is
    an opaque handle: the two ciphertext types are parameters. *)
Class Lib (E32 EB : Type) : Type := {
  asEuint32 : Z -> Tx E32;
  add : E32 -> E32 -> Tx E32;
  sub : E32 -> E32 -> Tx E32;
  rem : E32 -> Z -> Tx E32;
  eq : E32 -> E32 -> Tx EB;
  le : E32 -> E32 -> Tx EB;
  ge : E32 -> E32 -> Tx EB;
  select : EB -> E32 -> E32 -> Tx E32
}.

(** The reference implementation: each ciphertext is the plaintext it
    encrypts. *)
#[global] Instance clear : Lib euint32 ebool := {|
  asEuint32 v := request (OpTrivialEncrypt v) ;;; ret (wrap32 v);
  add a b := compute OpAdd a b (wrap32 (a + b)) ;;; ret (wrap32 (a + b));
  sub a b := compute OpSub a b (wrap32 (a - b)) ;;; ret (wrap32 (a - b));
  rem a modulus :=
    compute (OpRem modulus) a modulus (a mod modulus) ;;; ret (a mod modulus);
  eq a b := request OpEq ;;; ret (a =? b);
  le a b := request OpLe ;;; ret (a <=? b);
  ge a b := request OpGe ;;; ret (a >=? b);
  select c a b := request OpSelect ;;; ret (if c then a else b)
|}.

Definition randEuint32 : Tx euint32 :=
  fun w => Ok (wrap32 (entropy w (drawn w)),
               mkWorld (_positions w) (_hasJoined w) (events w)
                       (entropy w) (S (drawn w)) (OpRand :: oplog w)
                       (inputVerifier w) (arith w)).

(** [FHE.fromExternal(input, inputProof)], called by [sender] (the
    [msg.sender] of the transaction): the call reverts on an empty proof and
    on a proof the verifier does not accept for this sender and input;
    otherwise it yields the encrypted value. *)
Definition fromExternal (sender : address) (input : externalEuint32)
    (inputProof : bytes) : Tx euint32 :=
  request OpVerifyInput ;;;
  require (negb (length inputProof =? 0)%nat) EmptyInputProof ;;;
  let! valid := verifyInput sender input inputProof in
  require valid InputRejected ;;;
  ret (wrap32 input).

Definition allowThis (v : euint32) : Tx unit := request OpAllowThis.

Definition allow (v : euint32) (who : address) : Tx unit := request (OpAllow who).

End FHE.

(** ** The circuit the position engine builds

    A second implementation of [FHE.Lib]: a ciphertext is the expression
    that computes it from the inputs.  The requests are logged as by
    [FHE.clear]; no plaintext exists here. *)

Module Symbolic.

Inductive Circuit : Type :=
| Input (n : nat)
| Const (v : Z)
| Add (a b : Circuit)
| Sub (a b : Circuit)
| Rem (a : Circuit) (modulus : Z)
| Select (c : Condition) (a b : Circuit)
with Condition : Type :=
| Flag (n : nat)
| Eq (a b : Circuit)
| Le (a b : Circuit)
| Ge (a b : Circuit).

(** The plaintext of a circuit, given the plaintexts of its inputs. *)
Fixpoint value (inputs : nat -> Z) (flags : nat -> bool) (c : Circuit) : Z :=
  match c with
  | Input n => inputs n
  | Const v => wrap32 v
  | Add a b => wrap32 (value inputs flags a + value inputs flags b)
  | Sub a b => wrap32 (value inputs flags a - value inputs flags b)
  | Rem a modulus => value inputs flags a mod modulus
  | Select c a b =>
      if holds inputs flags c then value inputs flags a else value inputs flags b
  end
with holds (inputs : nat -> Z) (flags : nat -> bool) (c : Condition) : bool :=
  match c with
  | Flag n => flags n
  | Eq a b => value inputs flags a =? value inputs flags b
  | Le a b => value inputs flags a <=? value inputs flags b
  | Ge a b => value inputs flags a >=? value inputs flags b
  end.

#[global] Instance circuits : FHE.Lib Circuit Condition := {|
  FHE.asEuint32 v := request (OpTrivialEncrypt v) ;;; ret (Const v);
  FHE.add a b := request OpAdd ;;; ret (Add a b);
  FHE.sub a b := request OpSub ;;; ret (Sub a b);
  FHE.rem a modulus := request (OpRem modulus) ;;; ret (Rem a modulus);
  FHE.eq a b := request OpEq ;;; ret (Eq a b);
  FHE.le a b := request OpLe ;;; ret (Le a b);
  FHE.ge a b := request OpGe ;;; ret (Ge a b);
  FHE.select c a b := request OpSelect ;;; ret (Select c a b)
|}.

End Symbolic.

(** ** The contract *)

Definition MIN_COORD : Z := 1.
Definition MAX_COORD : Z := 10.
Definition DIRECTION_MODULO : Z := 4.

Definition _randomCoordinate : Tx euint32 :=
  let! sample := FHE.randEuint32 in
  let! bounded := FHE.rem sample MAX_COORD in
  let! shift := FHE.asEuint32 MIN_COORD in
  FHE.add bounded shift.

Definition _normalizeDirection {euint32 ebool : Type} `{FHE.Lib euint32 ebool}
    (direction : euint32) : Tx euint32 :=
  FHE.rem direction DIRECTION_MODULO.

Definition _applyStep {euint32 ebool : Type} `{FHE.Lib euint32 ebool}
    (current : euint32) (increment decrement : ebool) : Tx euint32 :=
  let! one := FHE.asEuint32 1 in
  let! incremented := FHE.add current one in
  let! decremented := FHE.sub current one in
  let! lo := FHE.asEuint32 MIN_COORD in
  let! atMin := FHE.le current lo in
  let! hi := FHE.asEuint32 MAX_COORD in
  let! atMax := FHE.ge current hi in
  let! safeIncrement := FHE.select atMax current incremented in
  let! safeDecrement := FHE.select atMin current decremented in
  let! afterIncrement := FHE.select increment safeIncrement current in
  FHE.select decrement safeDecrement afterIncrement.

Definition _updateHorizontal {euint32 ebool : Type} `{FHE.Lib euint32 ebool}
    (current direction : euint32) : Tx euint32 :=
  let! two := FHE.asEuint32 2 in
  let! moveLeft := FHE.eq direction two in
  let! three := FHE.asEuint32 3 in
  let! moveRight := FHE.eq direction three in
  _applyStep current moveRight moveLeft.

Definition _updateVertical {euint32 ebool : Type} `{FHE.Lib euint32 ebool}
    (current direction : euint32) : Tx euint32 :=
  let! zero := FHE.asEuint32 0 in
  let! moveUp := FHE.eq direction zero in
  let! one := FHE.asEuint32 1 in
  let! moveDown := FHE.eq direction one in
  _applyStep current moveUp moveDown.

Definition _allowPositionAccess (player : address) : Tx unit :=
  let! px := load_x player in
  FHE.allowThis px ;;;
  let! py := load_y player in
  FHE.allowThis py ;;;
  let! px' := load_x player in
  FHE.allow px' player ;;;
  let! py' := load_y player in
  FHE.allow py' player.

Definition AlreadyJoined : string := "Player already joined".
Definition NotJoined : string := "Join first".
Definition UnknownPlayer : string := "Unknown player".

Definition joinGame (sender : address) : Tx unit :=
  let! joined := load_hasJoined sender in
  require (negb joined) AlreadyJoined ;;;
  let! sx := _randomCoordinate in
  let! sy := _randomCoordinate in
  let startingPosition := {| x := sx; y := sy |} in
  store_position sender startingPosition ;;;
  store_hasJoined sender true ;;;
  _allowPositionAccess sender ;;;
  emit (PlayerJoined sender (x startingPosition) (y startingPosition)).

Definition move (sender : address) (directionInput : externalEuint32)
    (inputProof : bytes) : Tx unit :=
  let! joined := load_hasJoined sender in
  require joined NotJoined ;;;
  let! direction := FHE.fromExternal sender directionInput inputProof in
  let! normalizedDirection := _normalizeDirection direction in
  let! cx := load_x sender in
  let! nx := _updateHorizontal cx normalizedDirection in
  store_x sender nx ;;;
  let! cy := load_y sender in
  let! ny := _updateVertical cy normalizedDirection in
  store_y sender ny ;;;
  _allowPositionAccess sender ;;;
  let! ex := load_x sender in
  let! ey := load_y sender in
  emit (PlayerMoved sender ex ey).

Definition getPlayerPosition (player : address) : Tx (euint32 * euint32) :=
  let! joined := load_hasJoined player in
  require joined UnknownPlayer ;;;
  let! px := load_x player in
  let! py := load_y player in
  ret (px, py).

Definition hasJoined (player : address) : Tx bool := load_hasJoined player.

Definition boardLimits : Z * Z := (MIN_COORD, MAX_COORD).

(** ** Transactions

    A state-changing call either applies in full or reverts and leaves the
    world as it was. *)

Inductive Call : Type :=
| CallJoinGame
| CallMove (directionInput : externalEuint32) (inputProof : bytes).

Inductive Receipt : Type :=
| Success
| Reverted (reason : string).

Definition dispatch (sender : address) (c : Call) : Tx unit :=
  match c with
  | CallJoinGame => joinGame sender
  | CallMove d pf => move sender d pf
  end.

Definition transact (sender : address) (c : Call) (w : World) : World * Receipt :=
  match dispatch sender c w with
  | Ok (_, w') => (w', Success)
  | Revert r => (w, Reverted r)
  end.

(** A read-only call never changes the world, whatever it returns. *)
Definition query {A} (m : Tx A) (w : World) : World * Result A :=
  match m w with
  | Ok (a, _) => (w, Ok a)
  | Revert r => (w, Revert r)
  end.

(** The freshly deployed contract, with the coprocessor's random stream and
    the input verifier of its environment. *)
Definition genesis (rng : nat -> Z)
    (verifier : address -> externalEuint32 -> bytes -> bool) : World :=
  mkWorld ∅ ∅ [] rng 0%nat [] verifier [].

(** A verifier that accepts every proof, and a non-empty proof: the inputs
    of the worked examples. *)
Definition lenient : address -> externalEuint32 -> bytes -> bool :=
  fun _ _ _ => true.

Definition someProof : bytes := [x01].

Inductive reachable (rng : nat -> Z) : World -> Prop :=
| reach_genesis verifier : reachable rng (genesis rng verifier)
| reach_transact w sender c :
    reachable rng w -> reachable rng (fst (transact sender c w)).

(** Whether [FHE.fromExternal] lets an input of [sender] through. *)
Definition inputAccepted (w : World) (sender : address)
    (input : externalEuint32) (inputProof : bytes) : bool :=
  negb (length inputProof =? 0)%nat && inputVerifier w sender input inputProof.

(** The reason it gives when it does not. *)
Definition rejection (inputProof : bytes) : string :=
  if (length inputProof =? 0)%nat then EmptyInputProof else InputRejected.

(** Plaintext views of the storage. *)
Definition joined (w : World) (player : address) : bool :=
  default false (_hasJoined w !! player).

Definition position (w : World) (player : address) : Position :=
  default zeroPosition (_positions w !! player).

Definition in_board (v : Z) : Prop := MIN_COORD <= v <= MAX_COORD.

(** ** Plaintext denotations of the contract's functions

    Each internal function is a straight line of coprocessor requests.  The
    definitions below name, for every input, the value such a line returns
    and the requests it logs; the [_run] lemmas prove that the monadic code
    computes exactly these, and the claims are proved from those equations. *)

(** [ops] and the evaluations [ars], in chronological order, pushed onto
    the newest-first logs. *)
Definition logged (ops : list FheOp) (ars : list Arith) (w : World) : World :=
  mkWorld (_positions w) (_hasJoined w) (events w) (entropy w) (drawn w)
          (rev ops ++ oplog w) (inputVerifier w) (rev ars ++ arith w).

(** What [_applyStep] returns: the outer select is keyed on [decrement], the
    inner one on [increment]. *)
Definition stepValue (current : Z) (increment decrement : bool) : Z :=
  if decrement then (if current <=? MIN_COORD then current else wrap32 (current - 1))
  else if increment then (if current >=? MAX_COORD then current else wrap32 (current + 1))
  else current.

(** The requests of each function, in the order the source makes them. *)
Definition stepOps : list FheOp :=
  [ OpTrivialEncrypt 1; OpAdd; OpSub;
    OpTrivialEncrypt MIN_COORD; OpLe; OpTrivialEncrypt MAX_COORD; OpGe;
    OpSelect; OpSelect; OpSelect; OpSelect ].

Definition horizontalOps : list FheOp :=
  [ OpTrivialEncrypt 2; OpEq; OpTrivialEncrypt 3; OpEq ] ++ stepOps.

Definition verticalOps : list FheOp :=
  [ OpTrivialEncrypt 0; OpEq; OpTrivialEncrypt 1; OpEq ] ++ stepOps.

Definition randomOps : list FheOp :=
  [ OpRand; OpRem MAX_COORD; OpTrivialEncrypt MIN_COORD; OpAdd ].

Definition allowOps (player : address) : list FheOp :=
  [ OpAllowThis; OpAllowThis; OpAllow player; OpAllow player ].

(** The coordinate obtained from one output of the random stream. *)
Definition coordinateOf (sample : Z) : Z :=
  wrap32 (wrap32 sample mod MAX_COORD + wrap32 MIN_COORD).

(** The canonical direction code of a raw input. *)
Definition canonical (directionInput : Z) : Z :=
  wrap32 directionInput mod DIRECTION_MODULO.

(** The position a move leads to, as a function of the current one. *)
Definition nextPosition (directionInput : Z) (p : Position) : Position :=
  let d := canonical directionInput in
  {| x := stepValue (x p) (d =? 3) (d =? 2);
     y := stepValue (y p) (d =? 0) (d =? 1) |}.

Definition moveOps (player : address) : list FheOp :=
  [ OpVerifyInput; OpRem DIRECTION_MODULO ] ++ horizontalOps ++ verticalOps
  ++ allowOps player.

Definition joinOps (player : address) : list FheOp :=
  randomOps ++ randomOps ++ allowOps player.

(** The evaluations of one step, of one random coordinate, of a whole move
    and of a whole join, in the order they are made. *)
Definition stepArith (current : Z) : list Arith :=
  [ mkArith OpAdd current 1 (wrap32 (current + 1));
    mkArith OpSub current 1 (wrap32 (current - 1)) ].

Definition randomArith (sample : Z) : list Arith :=
  [ mkArith (OpRem MAX_COORD) (wrap32 sample) MAX_COORD (wrap32 sample mod MAX_COORD);
    mkArith OpAdd (wrap32 sample mod MAX_COORD) 1 (coordinateOf sample) ].

Definition moveArith (d : Z) (p : Position) : list Arith :=
  mkArith (OpRem DIRECTION_MODULO) (wrap32 d) DIRECTION_MODULO (canonical d)
  :: stepArith (x p) ++ stepArith (y p).

Definition joinArith (sampleX sampleY : Z) : list Arith :=
  randomArith sampleX ++ randomArith sampleY.

(** The world after a successful [move], respectively [joinGame]. *)
Definition movedWorld (sender : address) (d : Z) (w : World) : World :=
  let p' := nextPosition d (position w sender) in
  mkWorld (<[sender := p']> (_positions w)) (_hasJoined w)
          (PlayerMoved sender (x p') (y p') :: events w)
          (entropy w) (drawn w) (rev (moveOps sender) ++ oplog w)
          (inputVerifier w) (rev (moveArith d (position w sender)) ++ arith w).

Definition joinedWorld (sender : address) (w : World) : World :=
  let sx := coordinateOf (entropy w (drawn w)) in
  let sy := coordinateOf (entropy w (S (drawn w))) in
  mkWorld (<[sender := {| x := sx; y := sy |}]> (_positions w))
          (<[sender := true]> (_hasJoined w))
          (PlayerJoined sender sx sy :: events w)
          (entropy w) (S (S (drawn w))) (rev (joinOps sender) ++ oplog w)
          (inputVerifier w)
          (rev (joinArith (entropy w (drawn w)) (entropy w (S (drawn w))))
           ++ arith w).

(** Every joined player stands on the board. *)
Definition board_invariant (w : World) : Prop :=
  forall p, joined w p = true ->
    in_board (x (position w p)) /\ in_board (y (position w p)).

(** [n] successive move transactions of one sender with one input. *)
Fixpoint repeatMove (n : nat) (sender : address) (d : Z) (pf : bytes) (w : World) : World :=
  match n with
  | O => w
  | S k => repeatMove k sender d pf (fst (transact sender (CallMove d pf) w))
  end.

(** The first three statements of [_applyStep]: both candidates, computed
    before any comparison is made. *)
Definition stepCandidates (current : euint32) : Tx (euint32 * euint32) :=
  let! one := FHE.asEuint32 1 in
  let! incremented := FHE.add current one in
  let! decremented := FHE.sub current one in
  ret (incremented, decremented).

(** The remaining statements of [_applyStep]: the two boundary tests and the
    four selections. *)
Definition stepSelection (current incremented decremented : euint32)
    (increment decrement : ebool) : Tx euint32 :=
  let! lo := FHE.asEuint32 MIN_COORD in
  let! atMin := FHE.le current lo in
  let! hi := FHE.asEuint32 MAX_COORD in
  let! atMax := FHE.ge current hi in
  let! safeIncrement := FHE.select atMax current incremented in
  let! safeDecrement := FHE.select atMin current decremented in
  let! afterIncrement := FHE.select increment safeIncrement current in
  FHE.select decrement safeDecrement afterIncrement.

(** The requests a computation adds to the coprocessor's log. *)
Definition issued {A} (m : Tx A) (w : World) : option (list FheOp) :=
  match m w with
  | Ok (_, w') => Some (skipn (length (trace w)) (trace w'))
  | Revert _ => None
  end.

(** ** Histories

    A history is a list of transactions, oldest first, each with its
    sender. *)
Fixpoint runAll (txs : list (address * Call)) (w : World) : World :=
  match txs with
  | [] => w
  | (sender, c) :: rest => runAll rest (fst (transact sender c w))
  end.

(** The player an event is about, and the coordinate pair it carries. *)
Definition eventPlayer (e : Event) : address :=
  match e with
  | PlayerJoined player _ _ => player
  | PlayerMoved player _ _ => player
  end.

Definition eventPosition (e : Event) : Position :=
  match e with
  | PlayerJoined _ ex ey => {| x := ex; y := ey |}
  | PlayerMoved _ ex ey => {| x := ex; y := ey |}
  end.

(** What a listener of the contract's events last heard about [player];
    the log is newest first. *)
Fixpoint lastSeen (player : address) (log : list Event) : option Position :=
  match log with
  | [] => None
  | e :: older =>
      if (eventPlayer e =? player)%N then Some (eventPosition e)
      else lastSeen player older
  end.

Definition isJoinEvent (e : Event) : bool :=
  match e with PlayerJoined _ _ _ => true | PlayerMoved _ _ _ => false end.

(** The number of [move] calls of [player] in a history. *)
Fixpoint movesBy (player : address) (txs : list (address * Call)) : nat :=
  match txs with
  | [] => O
  | (sender, CallMove _ _) :: rest =>
      if (sender =? player)%N then S (movesBy player rest) else movesBy player rest
  | (_, CallJoinGame) :: rest => movesBy player rest
  end.

(** The direct route of [player] from [src] to [dst]: right or left along
    [x], then up or down along [y], one move per unit of distance. *)
Definition route (player : address) (pf : bytes) (src dst : Position)
    : list (address * Call) :=
  repeat (player, CallMove 3 pf) (Z.to_nat (x dst - x src)) ++
  repeat (player, CallMove 2 pf) (Z.to_nat (x src - x dst)) ++
  repeat (player, CallMove 0 pf) (Z.to_nat (y dst - y src)) ++
  repeat (player, CallMove 1 pf) (Z.to_nat (y src - y dst)).

(** The number of steps between two cells of the board. *)
Definition distance (p q : Position) : Z :=
  Z.abs (x q - x p) + Z.abs (y q - y p).

(** ** The clients

    The React application ([GameApp]) and the hardhat task [game:move]
    translate a direction keyword into the code they encrypt for [move];
    the [GameBoard] component renders the grid and highlights the decrypted
    position. *)

Module GameApp.

(** type DirectionKey = 'up' | 'down' | 'left' | 'right' *)
Inductive DirectionKey : Type := Up | Down | Left | Right.

(** The string literal a key is. *)
Definition keyword (k : DirectionKey) : string :=
  match k with
  | Up => "up"
  | Down => "down"
  | Left => "left"
  | Right => "right"
  end.

Definition directionCodes (k : DirectionKey) : Z :=
  match k with
  | Up => 0
  | Down => 1
  | Left => 2
  | Right => 3
  end.

Definition directionLabels (k : DirectionKey) : string :=
  match k with
  | Up => "North"
  | Down => "South"
  | Left => "West"
  | Right => "East"
  end.

End GameApp.

Module Tasks.

(** What a property read on [DIRECTION_MAP] can yield: nothing, one of the
    numbers of the table, or a member inherited from [Object.prototype]. *)
Inductive JsValue : Type :=
| JsUndefined
| JsNumber (n : Z)
| JsInherited (name : string).

(** The own properties of the object literal. *)
Definition DIRECTION_MAP : list (string * Z) :=
  [ ("up", 0); ("down", 1); ("left", 2); ("right", 3) ]%string.

Definition objectPrototypeNames : list string :=
  [ "constructor"; "__defineGetter__"; "__defineSetter__"; "hasOwnProperty";
    "__lookupGetter__"; "__lookupSetter__"; "isPrototypeOf";
    "propertyIsEnumerable"; "toString"; "valueOf"; "__proto__";
    "toLocaleString" ]%string.

Fixpoint ownProperty (key : string) (obj : list (string * Z)) : option Z :=
  match obj with
  | [] => None
  | (name, value) :: rest =>
      if String.eqb name key then Some value else ownProperty key rest
  end.

(** [obj[key]]: own properties first, then the prototype. *)
Definition get (obj : list (string * Z)) (key : string) : JsValue :=
  match ownProperty key obj with
  | Some n => JsNumber n
  | None =>
      if existsb (String.eqb key) objectPrototypeNames then JsInherited key
      else JsUndefined
  end.

(** [toLowerCase] on the ASCII characters a command-line keyword is made of:
    the letters A to Z go to a to z, everything else is kept. *)
Definition lowerChar (c : ascii) : ascii :=
  let n := nat_of_ascii c in
  if ((65 <=? n) && (n <=? 90))%nat then ascii_of_nat (n + 32) else c.

Fixpoint toLowerCase (s : string) : string :=
  match s with
  | EmptyString => EmptyString
  | String c rest => String (lowerChar c) (toLowerCase rest)
  end.

Inductive Outcome : Type :=
| Thrown (message : string)
| Encrypts (value : JsValue).

(** The part of the [game:move] action that decides what is encrypted. *)
Definition moveDirection (direction : string) : Outcome :=
  let directionKey := toLowerCase direction in
  let directionValue := get DIRECTION_MAP directionKey in
  match directionValue with
  | JsUndefined =>
      Thrown ("Unknown direction '" +:+ direction +:+ "', expected up|down|left|right")
  | value => Encrypts value
  end.

End Tasks.

Module GameBoard.

(** An integer as a template literal prints it. *)
Definition decimal (n : Z) : string := NilZero.string_of_int (Z.to_int n).

Record Cell : Type := mkCell {
  key : string;
  className : string;
  ariaLabel : string;
  coordinate : string;
  badge : option string
}.

Definition cellKey (column row : Z) : string :=
  decimal column +:+ "-" +:+ decimal row.

(** [position ? `${position.x}-${position.y}` : null] *)
Definition highlightKey (position : option Position) : option string :=
  match position with
  | Some p => Some (cellKey (x p) (y p))
  | None => None
  end.

(** [highlightKey === `${column}-${row}`] *)
Definition isActive (highlight : option string) (column row : Z) : bool :=
  match highlight with
  | Some k => String.eqb k (cellKey column row)
  | None => false
  end.

Definition cell (highlight : option string) (column row : Z) : Cell :=
  let active := isActive highlight column row in
  {| key := cellKey column row;
     className := "board-cell " +:+ (if active then "active" else "");
     ariaLabel := "Cell " +:+ decimal column +:+ "," +:+ decimal row;
     coordinate := decimal column +:+ "," +:+ decimal row;
     badge := if active then Some "You"%string else None |}.

(** for (let column = ...; column <= 10; column++) *)
Fixpoint columnLoop (fuel : nat) (column row : Z) (highlight : option string)
    : list Cell :=
  match fuel with
  | O => []
  | S fuel' =>
      if column <=? 10
      then cell highlight column row :: columnLoop fuel' (column + 1) row highlight
      else []
  end.

(** for (let row = ...; row >= 1; row--) *)
Fixpoint rowLoop (fuel : nat) (row : Z) (highlight : option string) : list Cell :=
  match fuel with
  | O => []
  | S fuel' =>
      if row >=? 1
      then columnLoop 11 1 row highlight ++ rowLoop fuel' (row - 1) highlight
      else []
  end.

(** The [cells] array; both loops end on their own condition, well within
    the fuel. *)
Definition cells (position : option Position) : list Cell :=
  rowLoop 11 10 (highlightKey position).

(** Where the cell of [(column, row)] sits in [cells]. *)
Definition cellIndex (column row : Z) : nat :=
  Z.to_nat ((10 - row) * 10 + (column - 1)).

End GameBoard.

(** No character of the string is a minus sign. *)
Fixpoint noDash (s : string) : bool :=
  match s with
  | EmptyString => true
  | String c rest => negb (Ascii.eqb c "-") && noDash rest
  end.

(** An evaluation the contract may make, and which did not wrap: an
    addition or subtraction of 1 with its left operand in [0, 10] and the
    exact integer as result, or a remainder of a 32-bit value by a positive
    modulus, lying in [0, modulus). *)
Definition exactArith (a : Arith) : Prop :=
  match arithOp a with
  | OpAdd =>
      0 <= arithLeft a <= 10 /\ arithRight a = 1 /\
      arithResult a = arithLeft a + arithRight a /\ is_uint32 (arithResult a)
  | OpSub =>
      0 <= arithLeft a <= 10 /\ arithRight a = 1 /\
      arithResult a = arithLeft a - arithRight a /\ is_uint32 (arithResult a)
  | OpRem modulus =>
      is_uint32 (arithLeft a) /\ arithRight a = modulus /\ 0 < modulus /\
      arithResult a = arithLeft a mod modulus /\ 0 <= arithResult a < modulus
  | _ => False
  end.

(** The circuit of one step on the ciphertexts [cur], [inc] and [dec]. *)
Definition stepCircuit (cur : Symbolic.Circuit) (inc dec : Symbolic.Condition)
    : Symbolic.Circuit :=
  Symbolic.Select dec
    (Symbolic.Select (Symbolic.Le cur (Symbolic.Const MIN_COORD)) cur
       (Symbolic.Sub cur (Symbolic.Const 1)))
    (Symbolic.Select inc
       (Symbolic.Select (Symbolic.Ge cur (Symbolic.Const MAX_COORD)) cur
          (Symbolic.Add cur (Symbolic.Const 1)))
       cur).

(** Unfolds the monadic plumbing of a straight-line transaction body. *)
Ltac tx_run :=
  cbv [_updateHorizontal _updateVertical _applyStep _randomCoordinate
       _normalizeDirection _allowPositionAccess
       load_x load_y store_x store_y load_position store_position
       load_hasJoined store_hasJoined emit
       FHE.asEuint32 FHE.randEuint32 FHE.fromExternal FHE.add FHE.sub FHE.rem
       FHE.eq FHE.le FHE.ge FHE.select FHE.allowThis FHE.allow FHE.clear
       request compute verifyInput bind ret require
       _positions _hasJoined events entropy drawn oplog inputVerifier arith].

Lemma _applyStep_run current increment decrement w :
  _applyStep current increment decrement w
  = Ok (stepValue current increment decrement,
        logged stepOps (stepArith current) w).
Proof. reflexivity. Qed.

Lemma _applyStep_circuit (cur : Symbolic.Circuit) (inc dec : Symbolic.Condition) w :
  _applyStep cur inc dec w = Ok (stepCircuit cur inc dec, logged stepOps [] w).
Proof. reflexivity. Qed.

Lemma stepCircuit_value inputs flags cur inc dec :
  Symbolic.value inputs flags (stepCircuit cur inc dec)
  = stepValue (Symbolic.value inputs flags cur)
              (Symbolic.holds inputs flags inc) (Symbolic.holds inputs flags dec).
Proof. reflexivity. Qed.

Lemma _updateHorizontal_run current direction w :
  _updateHorizontal current direction w
  = Ok (stepValue current (direction =? 3) (direction =? 2),
        logged horizontalOps (stepArith current) w).
Proof. reflexivity. Qed.

Lemma _updateVertical_run current direction w :
  _updateVertical current direction w
  = Ok (stepValue current (direction =? 0) (direction =? 1),
        logged verticalOps (stepArith current) w).
Proof. reflexivity. Qed.

Lemma _allowPositionAccess_run player w :
  _allowPositionAccess player w = Ok (tt, logged (allowOps player) [] w).
Proof. reflexivity. Qed.

Lemma _randomCoordinate_run w :
  _randomCoordinate w
  = Ok (coordinateOf (entropy w (drawn w)),
        mkWorld (_positions w) (_hasJoined w) (events w) (entropy w)
                (S (drawn w)) (rev randomOps ++ oplog w) (inputVerifier w)
                (rev (randomArith (entropy w (drawn w))) ++ arith w)).
Proof. reflexivity. Qed.

Lemma move_run sender d pf w :
  joined w sender = true ->
  inputAccepted w sender d pf = true ->
  move sender d pf w = Ok (tt, movedWorld sender d w).
Proof.
  unfold joined, inputAccepted. intros Hj Hacc.
  apply andb_prop in Hacc. destruct Hacc as [Hlen Hver].
  unfold move. tx_run.
  cbv [_hasJoined] in Hj. cbv [inputVerifier] in Hver. rewrite Hj, Hlen, Hver.
  rewrite !lookup_insert_eq. cbn [default from_option id x y].
  rewrite insert_insert_eq. reflexivity.
Qed.

Lemma move_rejected sender d pf w :
  joined w sender = true ->
  inputAccepted w sender d pf = false ->
  move sender d pf w = Revert (rejection pf).
Proof.
  unfold joined, inputAccepted, rejection. intros Hj Hacc.
  unfold move. tx_run.
  cbv [_hasJoined] in Hj. cbv [inputVerifier] in Hacc. rewrite Hj.
  destruct (length pf =? 0)%nat; [reflexivity|].
  cbn [negb andb] in Hacc |- *. rewrite Hacc. reflexivity.
Qed.

Lemma move_revert sender d pf w :
  joined w sender = false ->
  move sender d pf w = Revert NotJoined.
Proof.
  unfold joined. intros Hj. unfold move. tx_run.
  cbv [_hasJoined] in Hj. rewrite Hj. reflexivity.
Qed.

Lemma joinGame_run sender w :
  joined w sender = false ->
  joinGame sender w = Ok (tt, joinedWorld sender w).
Proof.
  unfold joined. intros Hj. unfold joinGame. tx_run.
  cbv [_hasJoined] in Hj. rewrite Hj. reflexivity.
Qed.

Lemma joinGame_revert sender w :
  joined w sender = true ->
  joinGame sender w = Revert AlreadyJoined.
Proof.
  unfold joined. intros Hj. unfold joinGame. tx_run.
  cbv [_hasJoined] in Hj. rewrite Hj. reflexivity.
Qed.

Lemma getPlayerPosition_run player w :
  joined w player = true ->
  getPlayerPosition player w = Ok ((x (position w player), y (position w player)), w).
Proof.
  unfold joined. intros Hj. unfold getPlayerPosition. tx_run.
  cbv [_hasJoined] in Hj. rewrite Hj. reflexivity.
Qed.

Lemma getPlayerPosition_revert player w :
  joined w player = false ->
  getPlayerPosition player w = Revert UnknownPlayer.
Proof.
  unfold joined. intros Hj. unfold getPlayerPosition. tx_run.
  cbv [_hasJoined] in Hj. rewrite Hj. reflexivity.
Qed.

(** ** Arithmetic of the plaintext denotations *)

Lemma wrap32_small v : 0 <= v < UINT32_MODULUS -> wrap32 v = v.
Proof. intros Hv. unfold wrap32. now apply Z.mod_small. Qed.

Lemma wrap32_range v : is_uint32 (wrap32 v).
Proof. unfold is_uint32, wrap32, UINT32_MODULUS. apply Z.mod_pos_bound. lia. Qed.

Lemma canonical_mod4 d : canonical d = d mod 4.
Proof.
  unfold canonical, wrap32, UINT32_MODULUS, DIRECTION_MODULO.
  apply Z.mod_mod_divide. exists 1073741824. reflexivity.
Qed.

Lemma canonical_range d : 0 <= canonical d < 4.
Proof. rewrite canonical_mod4. apply Z.mod_pos_bound. lia. Qed.

Lemma canonical_idem d : canonical (canonical d) = canonical d.
Proof. rewrite !canonical_mod4. apply Z.mod_mod. lia. Qed.

Lemma coordinateOf_spec sample :
  coordinateOf sample = (sample mod UINT32_MODULUS) mod 10 + 1.
Proof.
  unfold coordinateOf, MAX_COORD, MIN_COORD.
  assert (H : 0 <= wrap32 sample mod 10 < 10) by (apply Z.mod_pos_bound; lia).
  rewrite (wrap32_small 1) by (unfold UINT32_MODULUS; lia).
  rewrite wrap32_small by (unfold UINT32_MODULUS; lia).
  reflexivity.
Qed.

Lemma coordinateOf_in_board sample : in_board (coordinateOf sample).
Proof.
  rewrite coordinateOf_spec. unfold in_board, MIN_COORD, MAX_COORD.
  assert (H : 0 <= (sample mod UINT32_MODULUS) mod 10 < 10)
    by (apply Z.mod_pos_bound; lia).
  lia.
Qed.

Lemma stepValue_inc c :
  0 <= c < UINT32_MODULUS ->
  stepValue c true false = if c >=? 10 then c else c + 1.
Proof.
  unfold UINT32_MODULUS. intros Hc. unfold stepValue, MAX_COORD.
  rewrite Z.geb_leb. destruct (Z.leb_spec 10 c); [reflexivity|].
  apply wrap32_small. unfold UINT32_MODULUS. lia.
Qed.

Lemma stepValue_dec c i :
  0 <= c < UINT32_MODULUS ->
  stepValue c i true = if c <=? 1 then c else c - 1.
Proof.
  unfold UINT32_MODULUS. intros Hc. unfold stepValue, MIN_COORD.
  destruct (Z.leb_spec c 1); [reflexivity|].
  apply wrap32_small. unfold UINT32_MODULUS. lia.
Qed.

Lemma stepValue_idle c : stepValue c false false = c.
Proof. reflexivity. Qed.

Lemma stepValue_in_board c i d : in_board c -> in_board (stepValue c i d).
Proof.
  unfold in_board, MIN_COORD, MAX_COORD. intros Hc.
  assert (Hr : 0 <= c < UINT32_MODULUS) by (unfold UINT32_MODULUS; lia).
  destruct d.
  - rewrite stepValue_dec by assumption. destruct (Z.leb_spec c 1); lia.
  - destruct i.
    + rewrite stepValue_inc by assumption. rewrite Z.geb_leb.
      destruct (Z.leb_spec 10 c); lia.
    + rewrite stepValue_idle. lia.
Qed.

Lemma nextPosition_in_board d p :
  in_board (x p) -> in_board (y p) ->
  in_board (x (nextPosition d p)) /\ in_board (y (nextPosition d p)).
Proof.
  intros Hx Hy. unfold nextPosition. cbn [x y].
  split; apply stepValue_in_board; assumption.
Qed.

Lemma nextPosition_canonical d p :
  nextPosition (canonical d) p = nextPosition d p.
Proof. unfold nextPosition. rewrite canonical_idem. reflexivity. Qed.

Lemma nextPosition_code d p :
  nextPosition d p
  = {| x := stepValue (x p) (d mod 4 =? 3) (d mod 4 =? 2);
       y := stepValue (y p) (d mod 4 =? 0) (d mod 4 =? 1) |}.
Proof. unfold nextPosition. rewrite canonical_mod4. reflexivity. Qed.

(** ** Storage after a successful call *)

Lemma position_movedWorld_self p d w :
  position (movedWorld p d w) p = nextPosition d (position w p).
Proof. unfold position, movedWorld. cbn. rewrite lookup_insert_eq. reflexivity. Qed.

Lemma position_movedWorld_other p q d w :
  p <> q -> position (movedWorld p d w) q = position w q.
Proof.
  intros Hpq. unfold position, movedWorld. cbn.
  rewrite lookup_insert_ne by assumption. reflexivity.
Qed.

Lemma joined_movedWorld p q d w : joined (movedWorld p d w) q = joined w q.
Proof. reflexivity. Qed.

Lemma position_joinedWorld_self p w :
  position (joinedWorld p w) p
  = {| x := coordinateOf (entropy w (drawn w));
       y := coordinateOf (entropy w (S (drawn w))) |}.
Proof. unfold position, joinedWorld. cbn. rewrite lookup_insert_eq. reflexivity. Qed.

Lemma position_joinedWorld_other p q w :
  p <> q -> position (joinedWorld p w) q = position w q.
Proof.
  intros Hpq. unfold position, joinedWorld. cbn.
  rewrite lookup_insert_ne by assumption. reflexivity.
Qed.

Lemma joined_joinedWorld_self p w : joined (joinedWorld p w) p = true.
Proof. unfold joined, joinedWorld. cbn. rewrite lookup_insert_eq. reflexivity. Qed.

Lemma joined_joinedWorld_other p q w :
  p <> q -> joined (joinedWorld p w) q = joined w q.
Proof.
  intros Hpq. unfold joined, joinedWorld. cbn.
  rewrite lookup_insert_ne by assumption. reflexivity.
Qed.

Lemma transact_joinGame p w :
  transact p CallJoinGame w
  = if joined w p then (w, Reverted AlreadyJoined) else (joinedWorld p w, Success).
Proof.
  unfold transact, dispatch. destruct (joined w p) eqn:Hj.
  - rewrite joinGame_revert by assumption. reflexivity.
  - rewrite joinGame_run by assumption. reflexivity.
Qed.

Lemma transact_move p d pf w :
  transact p (CallMove d pf) w
  = if joined w p
    then if inputAccepted w p d pf then (movedWorld p d w, Success)
         else (w, Reverted (rejection pf))
    else (w, Reverted NotJoined).
Proof.
  unfold transact, dispatch. destruct (joined w p) eqn:Hj.
  - destruct (inputAccepted w p d pf) eqn:Hacc.
    + rewrite move_run by assumption. reflexivity.
    + rewrite move_rejected by assumption. reflexivity.
  - rewrite move_revert by assumption. reflexivity.
Qed.

Lemma transact_move_accepted p d pf w :
  joined w p = true ->
  inputAccepted w p d pf = true ->
  transact p (CallMove d pf) w = (movedWorld p d w, Success).
Proof. intros Hj Hacc. now rewrite transact_move, Hj, Hacc. Qed.

(** The verifier belongs to the environment: no transaction changes it. *)
Lemma inputAccepted_transact sender c w q d pf :
  inputAccepted (fst (transact sender c w)) q d pf = inputAccepted w q d pf.
Proof.
  destruct c as [|d' pf']; [rewrite transact_joinGame | rewrite transact_move];
    destruct (joined w sender); try destruct (inputAccepted w sender d' pf');
    reflexivity.
Qed.

Lemma rejection_cases pf : rejection pf = EmptyInputProof \/ rejection pf = InputRejected.
Proof. unfold rejection. destruct (length pf =? 0)%nat; auto. Qed.

(** ** The claims *)

(** C1.  From any position inside the board, a move changes exactly one
    axis by exactly 1: up (code 0) increments [y], down (1) decrements [y],
    left (2) decrements [x], right (3) increments [x], the other axis being
    left alone; an increment from 10 stays at 10 and a decrement from 1
    stays at 1.  The code is the raw direction reduced modulo 4; the
    encrypted input is one the library's verification accepts. *)
Theorem move_one_axis_by_one_clamped (w : World) (sender : address) (d : Z) (pf : bytes) :
  joined w sender = true ->
  inputAccepted w sender d pf = true ->
  in_board (x (position w sender)) ->
  in_board (y (position w sender)) ->
  exists w',
    move sender d pf w = Ok (tt, w') /\
    let cx := x (position w sender) in
    let cy := y (position w sender) in
    let nx := x (position w' sender) in
    let ny := y (position w' sender) in
    (d mod 4 = 0 -> nx = cx /\ ny = if cy =? MAX_COORD then MAX_COORD else cy + 1) /\
    (d mod 4 = 1 -> nx = cx /\ ny = if cy =? MIN_COORD then MIN_COORD else cy - 1) /\
    (d mod 4 = 2 -> ny = cy /\ nx = if cx =? MIN_COORD then MIN_COORD else cx - 1) /\
    (d mod 4 = 3 -> ny = cy /\ nx = if cx =? MAX_COORD then MAX_COORD else cx + 1) /\
    (d mod 4 = 0 \/ d mod 4 = 1 \/ d mod 4 = 2 \/ d mod 4 = 3).
Proof.
  intros Hj Hacc Hx Hy. exists (movedWorld sender d w).
  split; [apply move_run; assumption|].
  cbv zeta. rewrite position_movedWorld_self.
  unfold nextPosition. cbn [x y]. rewrite canonical_mod4.
  unfold in_board, MIN_COORD, MAX_COORD in *.
  set (cx := x (position w sender)) in *.
  set (cy := y (position w sender)) in *.
  assert (Hcx : 0 <= cx < UINT32_MODULUS) by (unfold UINT32_MODULUS; lia).
  assert (Hcy : 0 <= cy < UINT32_MODULUS) by (unfold UINT32_MODULUS; lia).
  assert (Hd : 0 <= d mod 4 < 4) by (apply Z.mod_pos_bound; lia).
  refine (conj _ (conj _ (conj _ (conj _ _)))); try intros Hk; try rewrite Hk;
    cbn [Z.eqb Pos.eqb];
    rewrite ?stepValue_idle, ?stepValue_dec, ?stepValue_inc by assumption;
    rewrite ?Z.geb_leb.
  - split; [reflexivity|].
    destruct (Z.leb_spec 10 cy), (Z.eqb_spec cy 10); lia.
  - split; [reflexivity|].
    destruct (Z.leb_spec cy 1), (Z.eqb_spec cy 1); lia.
  - split; [reflexivity|].
    destruct (Z.leb_spec cx 1), (Z.eqb_spec cx 1); lia.
  - split; [reflexivity|].
    destruct (Z.leb_spec 10 cx), (Z.eqb_spec cx 10); lia.
  - lia.
Qed.

Lemma move_one_axis_by_one_clamped_witness :
  exists w',
    move 7%N 3 someProof
         (fst (transact 7%N CallJoinGame (genesis (fun n => Z.of_nat n) lenient)))
    = Ok (tt, w').
Proof.
  destruct (move_one_axis_by_one_clamped
              (fst (transact 7%N CallJoinGame (genesis (fun n => Z.of_nat n) lenient)))
              7%N 3 someProof) as [w' [Hrun _]].
  - vm_compute. reflexivity.
  - vm_compute. reflexivity.
  - vm_compute. split; intros H; discriminate H.
  - vm_compute. split; intros H; discriminate H.
  - exists w'. exact Hrun.
Defined.

Lemma board_invariant_genesis rng verifier :
  board_invariant (genesis rng verifier).
Proof. intros p Hp. discriminate Hp. Qed.

Lemma board_invariant_joinGame w sender :
  board_invariant w -> board_invariant (fst (transact sender CallJoinGame w)).
Proof.
  intros Hinv. rewrite transact_joinGame.
  destruct (joined w sender) eqn:Hj; cbn [fst]; [assumption|].
  intros p Hp. destruct (decide (sender = p)) as [<-|Hne].
  - rewrite position_joinedWorld_self. cbn [x y].
    split; apply coordinateOf_in_board.
  - rewrite position_joinedWorld_other by assumption.
    rewrite joined_joinedWorld_other in Hp by assumption. auto.
Qed.

Lemma board_invariant_move w sender d pf :
  board_invariant w -> board_invariant (fst (transact sender (CallMove d pf) w)).
Proof.
  intros Hinv. rewrite transact_move.
  destruct (joined w sender) eqn:Hj; cbn [fst]; [|assumption].
  destruct (inputAccepted w sender d pf); cbn [fst]; [|assumption].
  intros p Hp. rewrite joined_movedWorld in Hp.
  destruct (decide (sender = p)) as [<-|Hne].
  - rewrite position_movedWorld_self.
    destruct (Hinv sender Hj). now apply nextPosition_in_board.
  - rewrite position_movedWorld_other by assumption. auto.
Qed.

(** C2.  In every world reachable from deployment by any sequence of join
    and move transactions, of any senders and with any direction inputs,
    each joined player's stored [x] and [y] lie in [1, 10]. *)
Theorem joined_positions_in_board (rng : nat -> Z) (w : World) (player : address) :
  reachable rng w ->
  joined w player = true ->
  MIN_COORD <= x (position w player) <= MAX_COORD /\
  MIN_COORD <= y (position w player) <= MAX_COORD.
Proof.
  intros Hreach. revert player.
  change (board_invariant w).
  induction Hreach as [|w sender c _ IH].
  - apply board_invariant_genesis.
  - destruct c.
    + now apply board_invariant_joinGame.
    + now apply board_invariant_move.
Qed.

Lemma joined_positions_in_board_witness :
  let rng := fun n : nat => 1234567 * Z.of_nat n + 4294967295 in
  let w := fst (transact 7%N (CallMove 4294967295 someProof)
                 (fst (transact 7%N CallJoinGame (genesis rng lenient)))) in
  1 <= x (position w 7%N) <= 10 /\ 1 <= y (position w 7%N) <= 10.
Proof.
  intros rng w.
  apply (joined_positions_in_board rng w 7%N).
  - unfold w. apply reach_transact. apply reach_transact. apply reach_genesis.
  - vm_compute. reflexivity.
Defined.

(** C3.  Each operation fails exactly when its precondition is violated:
    join reverts with "Player already joined" iff the caller's flag is set,
    move reverts with "Join first" iff the caller's flag is clear, the
    position query reverts with "Unknown player" iff the queried player's
    flag is clear; otherwise they succeed, a move provided its encrypted
    input passes the library's verification: with such an input "Join
    first" is the only way a move fails.  (A joined caller's move with a
    rejected input reverts in [FHE.fromExternal], with the library's own
    reason.)  Whatever the reason, a reverted transaction and a query leave
    the whole world, hence every record and flag, as it was. *)
Theorem operations_fail_exactly_on_precondition
    (w : World) (sender player : address) (d : Z) (pf : bytes) :
  (joinGame sender w = Revert AlreadyJoined <-> joined w sender = true) /\
  ((exists w', joinGame sender w = Ok (tt, w')) <-> joined w sender = false) /\
  (move sender d pf w = Revert NotJoined <-> joined w sender = false) /\
  ((exists w', move sender d pf w = Ok (tt, w')) <->
   joined w sender = true /\ inputAccepted w sender d pf = true) /\
  ((exists reason, move sender d pf w = Revert reason /\ reason <> NotJoined) <->
   joined w sender = true /\ inputAccepted w sender d pf = false) /\
  (inputAccepted w sender d pf = true ->
   forall reason, move sender d pf w = Revert reason ->
                  reason = NotJoined /\ joined w sender = false) /\
  (getPlayerPosition player w = Revert UnknownPlayer <-> joined w player = false) /\
  ((exists v, getPlayerPosition player w = Ok (v, w)) <-> joined w player = true) /\
  (forall c, snd (transact sender c w) = Success \/ fst (transact sender c w) = w) /\
  (forall c reason, snd (transact sender c w) = Reverted reason ->
     fst (transact sender c w) = w /\
     (reason = AlreadyJoined \/ reason = NotJoined \/
      reason = EmptyInputProof \/ reason = InputRejected)) /\
  fst (query (getPlayerPosition player) w) = w.
Proof.
  assert (Hrej : rejection pf <> NotJoined).
  { destruct (rejection_cases pf) as [-> | ->]; discriminate. }
  repeat match goal with |- _ /\ _ => split end.
  - destruct (joined w sender) eqn:Hj.
    + rewrite joinGame_revert by assumption. tauto.
    + rewrite joinGame_run by assumption. split; intros H; discriminate H.
  - destruct (joined w sender) eqn:Hj.
    + rewrite joinGame_revert by assumption.
      split; [intros [w' Hw]; discriminate Hw | discriminate].
    + rewrite joinGame_run by assumption. split; eauto.
  - destruct (joined w sender) eqn:Hj.
    + destruct (inputAccepted w sender d pf) eqn:Hacc.
      * rewrite move_run by assumption. split; intros H; discriminate H.
      * rewrite move_rejected by assumption.
        split; [intros [= H]; now destruct Hrej | discriminate].
    + rewrite move_revert by assumption. tauto.
  - destruct (joined w sender) eqn:Hj.
    + destruct (inputAccepted w sender d pf) eqn:Hacc.
      * rewrite move_run by assumption. split; eauto.
      * rewrite move_rejected by assumption.
        split; [intros [w' Hw]; discriminate Hw | intros [_ H]; discriminate H].
    + rewrite move_revert by assumption.
      split; [intros [w' Hw]; discriminate Hw | intros [H _]; discriminate H].
  - destruct (joined w sender) eqn:Hj.
    + destruct (inputAccepted w sender d pf) eqn:Hacc.
      * rewrite move_run by assumption.
        split; [intros [r [Hr _]]; discriminate Hr | intros [_ H]; discriminate H].
      * rewrite move_rejected by assumption. split; eauto.
    + rewrite move_revert by assumption.
      split; [intros [r [[= <-] Hr]]; now destruct Hr | intros [H _]; discriminate H].
  - intros Hacc reason. destruct (joined w sender) eqn:Hj.
    + rewrite move_run by assumption. discriminate.
    + rewrite move_revert by assumption. intros [= <-]. auto.
  - destruct (joined w player) eqn:Hj.
    + rewrite getPlayerPosition_run by assumption. split; intros H; discriminate H.
    + rewrite getPlayerPosition_revert by assumption. tauto.
  - destruct (joined w player) eqn:Hj.
    + rewrite getPlayerPosition_run by assumption. split; eauto.
    + rewrite getPlayerPosition_revert by assumption.
      split; [intros [v Hv]; discriminate Hv | discriminate].
  - intros [|d' pf']; [rewrite transact_joinGame | rewrite transact_move];
      destruct (joined w sender); try destruct (inputAccepted w sender d' pf');
      cbn [fst snd]; auto.
  - intros [|d' pf'] reason; [rewrite transact_joinGame | rewrite transact_move];
      destruct (joined w sender); try destruct (inputAccepted w sender d' pf');
      cbn [fst snd]; intros Hr;
      try discriminate Hr; injection Hr as <-; (split; [reflexivity|]); auto.
    destruct (rejection_cases pf') as [-> | ->]; auto.
  - unfold query. destruct (getPlayerPosition player w) as [[v w']|r]; reflexivity.
Qed.

(** C4.  [move] is total in the direction code: whatever integer the input
    encrypts, an accepted input makes a joined caller's move succeed and
    lead to the position the canonical code [d mod 4], one of 0, 1, 2, 3,
    leads to.  The call reverts only for a caller that has not joined or
    for an input the library's verification rejects, never because of the
    direction. *)
Theorem move_total_in_direction
    (w : World) (sender : address) (d : Z) (pf pf' : bytes) :
  0 <= d mod 4 < 4 /\
  (if joined w sender
   then if inputAccepted w sender d pf
        then exists w',
               move sender d pf w = Ok (tt, w') /\
               position w' sender
               = {| x := stepValue (x (position w sender))
                                   (d mod 4 =? 3) (d mod 4 =? 2);
                    y := stepValue (y (position w sender))
                                   (d mod 4 =? 0) (d mod 4 =? 1) |} /\
               (inputAccepted w sender (d mod 4) pf' = true ->
                position w' sender
                = position (fst (transact sender (CallMove (d mod 4) pf') w)) sender)
        else move sender d pf w = Revert (rejection pf)
   else move sender d pf w = Revert NotJoined).
Proof.
  split; [apply Z.mod_pos_bound; lia|].
  destruct (joined w sender) eqn:Hj; [|now apply move_revert].
  destruct (inputAccepted w sender d pf) eqn:Hacc; [|now apply move_rejected].
  exists (movedWorld sender d w). split; [now apply move_run|].
  rewrite position_movedWorld_self. split; [apply nextPosition_code|].
  intros Hacc'. rewrite transact_move_accepted by assumption. cbn [fst].
  rewrite position_movedWorld_self.
  rewrite <- canonical_mod4, nextPosition_canonical. reflexivity.
Qed.

Example move_total_in_direction_run :
  let w := fst (transact 7%N CallJoinGame (genesis (fun n => Z.of_nat n) lenient)) in
  position (fst (transact 7%N (CallMove 4294967295 someProof) w)) 7%N
  = position (fst (transact 7%N (CallMove 3 someProof) w)) 7%N /\
  transact 7%N (CallMove 3 []) w = (w, Reverted EmptyInputProof).
Proof. split; vm_compute; reflexivity. Qed.

(** C5.  For a player that has not joined, [joinGame] succeeds; it takes two
    successive outputs of the random stream, each a full-range 32-bit value,
    reduces each modulo 10 into [0, 9] and adds 1, so that [x] and [y] start in
    [1, 10]; afterwards [hasJoined] answers true. *)
Theorem joinGame_random_start (w : World) (sender : address) :
  joined w sender = false ->
  exists w',
    joinGame sender w = Ok (tt, w') /\
    let sampleX := entropy w (drawn w) mod UINT32_MODULUS in
    let sampleY := entropy w (S (drawn w)) mod UINT32_MODULUS in
    is_uint32 sampleX /\ is_uint32 sampleY /\
    0 <= sampleX mod MAX_COORD <= 9 /\
    0 <= sampleY mod MAX_COORD <= 9 /\
    x (position w' sender) = sampleX mod MAX_COORD + MIN_COORD /\
    y (position w' sender) = sampleY mod MAX_COORD + MIN_COORD /\
    1 <= x (position w' sender) <= 10 /\
    1 <= y (position w' sender) <= 10 /\
    drawn w' = S (S (drawn w)) /\
    hasJoined sender w' = Ok (true, w').
Proof.
  intros Hj. exists (joinedWorld sender w).
  split; [now apply joinGame_run|]. cbv zeta.
  rewrite position_joinedWorld_self. cbn [x y].
  pose proof (coordinateOf_in_board (entropy w (drawn w))) as Hx.
  pose proof (coordinateOf_in_board (entropy w (S (drawn w)))) as Hy.
  rewrite !coordinateOf_spec in *.
  unfold in_board, MIN_COORD, MAX_COORD in *.
  assert (Hu : 0 < UINT32_MODULUS) by (unfold UINT32_MODULUS; lia).
  repeat match goal with |- _ /\ _ => split end;
    try (apply Z.mod_pos_bound; lia); try lia; try reflexivity.
  unfold hasJoined, load_hasJoined.
  change (default false (_hasJoined (joinedWorld sender w) !! sender))
    with (joined (joinedWorld sender w) sender).
  rewrite joined_joinedWorld_self. reflexivity.
Qed.

Lemma joinGame_random_start_witness :
  exists w',
    joinGame 7%N (genesis (fun n => 4294967295 - Z.of_nat n) lenient) = Ok (tt, w') /\
    x (position w' 7%N) = 6 /\ y (position w' 7%N) = 5.
Proof.
  destruct (joinGame_random_start (genesis (fun n => 4294967295 - Z.of_nat n) lenient) 7%N)
    as [w' [Hrun [_ [_ [_ [_ [Hx [Hy _]]]]]]]].
  - reflexivity.
  - exists w'. split; [exact Hrun|]. split; [exact Hx | exact Hy].
Defined.

(** C7.  A join or a move by [p] leaves the joined flag and the stored
    coordinate pair of every other player [q] exactly as they were. *)
Theorem other_players_untouched (w : World) (p q : address) (c : Call) :
  p <> q ->
  let w' := fst (transact p c w) in
  _hasJoined w' !! q = _hasJoined w !! q /\
  _positions w' !! q = _positions w !! q /\
  joined w' q = joined w q /\
  position w' q = position w q.
Proof.
  intros Hpq w'.
  assert (Hmaps : _hasJoined w' !! q = _hasJoined w !! q /\
                  _positions w' !! q = _positions w !! q).
  { unfold w'. destruct c as [|d pf];
      [rewrite transact_joinGame | rewrite transact_move];
      destruct (joined w p); try destruct (inputAccepted w p d pf);
      cbn [fst]; try (split; reflexivity);
      unfold joinedWorld, movedWorld; cbn;
      rewrite ?lookup_insert_ne by assumption; split; reflexivity. }
  destruct Hmaps as [Hh Hp].
  unfold joined, position. rewrite Hh, Hp. auto.
Qed.

Lemma other_players_untouched_witness :
  let w := fst (transact 8%N CallJoinGame (genesis (fun n => Z.of_nat n) lenient)) in
  let w' := fst (transact 7%N CallJoinGame w) in
  joined w' 8%N = true /\ position w' 8%N = {| x := 1; y := 2 |}.
Proof.
  intros w w'.
  destruct (other_players_untouched w 7%N 8%N CallJoinGame) as [_ [_ [Hj Hp]]].
  - discriminate.
  - fold w' in Hj, Hp. rewrite Hj, Hp. split; reflexivity.
Defined.

Lemma joined_repeatMove n p q d pf w :
  joined (repeatMove n p d pf w) q = joined w q.
Proof.
  revert w. induction n as [|n IH]; intros w; cbn [repeatMove]; [reflexivity|].
  rewrite IH, transact_move.
  destruct (joined w p); try destruct (inputAccepted w p d pf); reflexivity.
Qed.

Lemma inputAccepted_repeatMove n p d pf w q d' pf' :
  inputAccepted (repeatMove n p d pf w) q d' pf' = inputAccepted w q d' pf'.
Proof.
  revert w. induction n as [|n IH]; intros w; cbn [repeatMove]; [reflexivity|].
  rewrite IH. apply inputAccepted_transact.
Qed.

(** A rejected input moves nobody, however often it is sent. *)
Lemma repeatMove_rejected n p d pf w :
  inputAccepted w p d pf = false -> repeatMove n p d pf w = w.
Proof.
  intros Hacc. induction n as [|n IH]; cbn [repeatMove]; [reflexivity|].
  rewrite transact_move, Hacc. destruct (joined w p); cbn [fst]; exact IH.
Qed.

Lemma position_repeatMove n p d pf w :
  joined w p = true ->
  inputAccepted w p d pf = true ->
  position (repeatMove n p d pf w) p = Nat.iter n (nextPosition d) (position w p).
Proof.
  revert w. induction n as [|n IH]; intros w Hj Hacc; [reflexivity|].
  cbn [repeatMove]. rewrite transact_move, Hj, Hacc. cbn [fst].
  rewrite IH by (rewrite ?joined_movedWorld; assumption).
  rewrite position_movedWorld_self.
  symmetry. apply Nat.iter_succ_r.
Qed.

(** [n] increments from inside the board stop at the upper edge, [n]
    decrements at the lower edge. *)
Lemma iter_increment n c :
  in_board c ->
  Nat.iter n (fun v => stepValue v true false) c = Z.min MAX_COORD (c + Z.of_nat n).
Proof.
  unfold in_board, MIN_COORD, MAX_COORD. revert c.
  induction n as [|n IH]; intros c Hc.
  - cbn [Nat.iter nat_rect]. lia.
  - rewrite Nat.iter_succ_r, stepValue_inc by (unfold UINT32_MODULUS; lia).
    rewrite Z.geb_leb. destruct (Z.leb_spec 10 c); rewrite IH; lia.
Qed.

Lemma iter_decrement n c :
  in_board c ->
  Nat.iter n (fun v => stepValue v false true) c = Z.max MIN_COORD (c - Z.of_nat n).
Proof.
  unfold in_board, MIN_COORD, MAX_COORD. revert c.
  induction n as [|n IH]; intros c Hc.
  - cbn [Nat.iter nat_rect]. lia.
  - rewrite Nat.iter_succ_r, stepValue_dec by (unfold UINT32_MODULUS; lia).
    destruct (Z.leb_spec c 1); rewrite IH; lia.
Qed.

Lemma iter_axes n (fx fy : Z -> Z) p :
  Nat.iter n (fun q => {| x := fx (x q); y := fy (y q) |}) p
  = {| x := Nat.iter n fx (x p); y := Nat.iter n fy (y p) |}.
Proof.
  induction n as [|n IH]; [destruct p; reflexivity|].
  rewrite !Nat.iter_succ, IH. reflexivity.
Qed.

Lemma iter_idle n (c : Z) : Nat.iter n (fun v => stepValue v false false) c = c.
Proof. induction n as [|n IH]; [reflexivity|]. now rewrite Nat.iter_succ, IH. Qed.

(** The position after [n] moves with a given canonical code. *)
Lemma position_repeat_code n p d pf w :
  joined w p = true ->
  inputAccepted w p d pf = true ->
  position (repeatMove n p d pf w) p
  = {| x := Nat.iter n (fun v => stepValue v (d mod 4 =? 3) (d mod 4 =? 2)) (x (position w p));
       y := Nat.iter n (fun v => stepValue v (d mod 4 =? 0) (d mod 4 =? 1)) (y (position w p)) |}.
Proof.
  intros Hj Hacc. rewrite position_repeatMove by assumption.
  rewrite <- iter_axes. clear Hj Hacc. generalize (position w p) as q.
  induction n as [|n IH]; intros q; [reflexivity|].
  rewrite !Nat.iter_succ, IH, nextPosition_code. reflexivity.
Qed.

Lemma repeat_at_edge n p d pf w :
  joined w p = true ->
  (d mod 4 = 0 /\ y (position w p) = MAX_COORD) \/
  (d mod 4 = 1 /\ y (position w p) = MIN_COORD) \/
  (d mod 4 = 2 /\ x (position w p) = MIN_COORD) \/
  (d mod 4 = 3 /\ x (position w p) = MAX_COORD) ->
  position (repeatMove n p d pf w) p = position w p.
Proof.
  intros Hj Hedge.
  destruct (inputAccepted w p d pf) eqn:Hacc;
    [|now rewrite repeatMove_rejected].
  rewrite position_repeat_code by assumption.
  destruct (position w p) as [cx cy]. cbn [x y] in *.
  unfold MIN_COORD, MAX_COORD in Hedge.
  destruct Hedge as [[-> ->]|[[-> ->]|[[-> ->]|[-> ->]]]]; cbn [Z.eqb Pos.eqb];
    rewrite ?iter_idle, ?iter_increment, ?iter_decrement
      by (unfold in_board, MIN_COORD, MAX_COORD; lia);
    unfold MIN_COORD, MAX_COORD; f_equal; lia.
Qed.

(** C6.  Repeating one direction drives the player to the edge and keeps it
    there.  From any start [(x0, y0)] on the board, 15 up moves give
    [y = 10] with [x = x0], and 15 further left moves give [x = 1] with
    [y = 10]; likewise 15 lefts then 15 ups, as in the repository's test.
    Once a coordinate is at the edge a direction pushes against, any number
    of further moves in that direction leaves the position as it is.  The
    up and the left input are ones the library's verification accepts. *)
Theorem repeated_moves_pin_at_edge (w : World) (p : address) (pf : bytes) :
  joined w p = true ->
  inputAccepted w p 0 pf = true ->
  inputAccepted w p 2 pf = true ->
  in_board (x (position w p)) ->
  in_board (y (position w p)) ->
  let x0 := x (position w p) in
  let up15 := repeatMove 15 p 0 pf w in
  let left15 := repeatMove 15 p 2 pf up15 in
  let corner := repeatMove 15 p 0 pf (repeatMove 15 p 2 pf w) in
  (y (position up15 p) = 10 /\ x (position up15 p) = x0) /\
  (x (position left15 p) = 1 /\ y (position left15 p) = 10) /\
  (x (position corner p) = 1 /\ y (position corner p) = 10) /\
  (forall (n : nat) (d : Z) (w1 : World),
     joined w1 p = true ->
     (d mod 4 = 0 /\ y (position w1 p) = MAX_COORD) \/
     (d mod 4 = 1 /\ y (position w1 p) = MIN_COORD) \/
     (d mod 4 = 2 /\ x (position w1 p) = MIN_COORD) \/
     (d mod 4 = 3 /\ x (position w1 p) = MAX_COORD) ->
     position (repeatMove n p d pf w1) p = position w1 p).
Proof.
  intros Hj Hup0 Hleft0 Hx Hy x0 up15 left15 corner.
  assert (Hup : position up15 p = {| x := x0; y := 10 |}).
  { unfold up15. rewrite position_repeat_code by assumption.
    change (0 mod 4) with 0. cbn [Z.eqb Pos.eqb].
    rewrite iter_idle, iter_increment by assumption.
    unfold in_board, MIN_COORD, MAX_COORD in *. f_equal. lia. }
  assert (Hleft : position left15 p = {| x := 1; y := 10 |}).
  { unfold left15. rewrite position_repeat_code
      by (unfold up15; rewrite ?joined_repeatMove, ?inputAccepted_repeatMove;
          assumption).
    rewrite Hup. cbn [x y]. change (2 mod 4) with 2. cbn [Z.eqb Pos.eqb].
    rewrite iter_idle, iter_decrement by exact Hx.
    unfold in_board, MIN_COORD, MAX_COORD in *. f_equal. fold x0. lia. }
  assert (Hcorner : position corner p = {| x := 1; y := 10 |}).
  { unfold corner. rewrite position_repeat_code
      by (rewrite ?joined_repeatMove, ?inputAccepted_repeatMove; assumption).
    rewrite position_repeat_code by assumption. cbn [x y].
    change (2 mod 4) with 2. change (0 mod 4) with 0. cbn [Z.eqb Pos.eqb].
    rewrite !iter_idle, iter_increment, iter_decrement by assumption.
    unfold in_board, MIN_COORD, MAX_COORD in *. f_equal; lia. }
  rewrite Hup, Hleft, Hcorner. cbn [x y].
  repeat match goal with |- _ /\ _ => split end; try reflexivity.
  intros n d w1 Hj1 Hedge. now apply repeat_at_edge.
Qed.

Lemma repeated_moves_pin_at_edge_witness :
  let w := fst (transact 7%N CallJoinGame (genesis (fun n => 13 * Z.of_nat n + 4) lenient)) in
  let up15 := repeatMove 15 7%N 0 someProof w in
  let left15 := repeatMove 15 7%N 2 someProof up15 in
  position w 7%N = {| x := 5; y := 8 |} /\
  position up15 7%N = {| x := 5; y := 10 |} /\
  position left15 7%N = {| x := 1; y := 10 |}.
Proof.
  intros w up15 left15.
  assert (Hstart : position w 7%N = {| x := 5; y := 8 |}) by (vm_compute; reflexivity).
  destruct (repeated_moves_pin_at_edge w 7%N someProof) as [[Hy Hx] [[Hx' Hy'] _]].
  - vm_compute. reflexivity.
  - vm_compute. reflexivity.
  - vm_compute. reflexivity.
  - rewrite Hstart. vm_compute. split; discriminate.
  - rewrite Hstart. vm_compute. split; discriminate.
  - fold up15 in Hy, Hx, Hx', Hy'. fold left15 in Hx', Hy'.
    rewrite Hstart in Hx. cbn [x] in Hx.
    split; [exact Hstart|].
    destruct (position up15 7%N) as [a b], (position left15 7%N) as [a' b'].
    cbn [x y] in *. subst. split; reflexivity.
Defined.

Lemma _applyStep_split current increment decrement w :
  _applyStep current increment decrement w
  = (let! cand := stepCandidates current in
     stepSelection current (fst cand) (snd cand) increment decrement) w.
Proof. reflexivity. Qed.

Lemma stepCandidates_run current w :
  stepCandidates current w
  = Ok ((wrap32 (current + 1), wrap32 (current - 1)),
        logged [OpTrivialEncrypt 1; OpAdd; OpSub] (stepArith current) w).
Proof. reflexivity. Qed.

Lemma trace_logged ops ars w : trace (logged ops ars w) = trace w ++ ops.
Proof. unfold trace, logged. cbn. rewrite rev_app_distr, rev_involutive. reflexivity. Qed.

Lemma issued_of_oplog {A} (m : Tx A) (a : A) ops w w' :
  m w = Ok (a, w') -> oplog w' = rev ops ++ oplog w -> issued m w = Some ops.
Proof.
  intros Hrun Hlog. unfold issued, trace. rewrite Hrun.
  cbv [oplog] in Hlog. cbv [oplog]. rewrite Hlog.
  rewrite rev_app_distr, rev_involutive.
  f_equal. apply drop_app_length.
Qed.

Lemma issued_logged {A} (m : Tx A) (a : A) ops ars w :
  m w = Ok (a, logged ops ars w) -> issued m w = Some ops.
Proof.
  intros Hrun. now apply issued_of_oplog with (a := a) (w' := logged ops ars w).
Qed.

Lemma reachable_board_invariant (rng : nat -> Z) (w : World) :
  reachable rng w -> board_invariant w.
Proof.
  intros Hreach. induction Hreach as [|w sender c _ IH].
  - apply board_invariant_genesis.
  - destruct c; [now apply board_invariant_joinGame | now apply board_invariant_move].
Qed.

Lemma coordinateOf_shift sample :
  coordinateOf sample = wrap32 sample mod MAX_COORD + 1 /\
  0 <= wrap32 sample mod MAX_COORD <= 9.
Proof.
  assert (H : 0 <= wrap32 sample mod 10 < 10) by (apply Z.mod_pos_bound; lia).
  unfold coordinateOf, MAX_COORD, MIN_COORD.
  rewrite (wrap32_small 1) by (unfold UINT32_MODULUS; lia).
  rewrite wrap32_small by (unfold UINT32_MODULUS; lia).
  lia.
Qed.

Lemma stepArith_exact current : in_board current -> Forall exactArith (stepArith current).
Proof.
  unfold in_board, MIN_COORD, MAX_COORD. intros Hc.
  assert (Hu : UINT32_MODULUS = 4294967296) by reflexivity.
  assert (Hinc : wrap32 (current + 1) = current + 1) by (apply wrap32_small; lia).
  assert (Hdec : wrap32 (current - 1) = current - 1) by (apply wrap32_small; lia).
  unfold stepArith. rewrite Hinc, Hdec.
  repeat constructor; cbn; unfold is_uint32; lia.
Qed.

Lemma randomArith_exact sample : Forall exactArith (randomArith sample).
Proof.
  destruct (coordinateOf_shift sample) as [Hc Hb].
  pose proof (wrap32_range sample) as Hs.
  assert (Hu : UINT32_MODULUS = 4294967296) by reflexivity.
  unfold randomArith. rewrite Hc. unfold MAX_COORD in *. unfold is_uint32 in *.
  repeat constructor; cbn; unfold is_uint32; lia.
Qed.

Lemma moveArith_exact d p :
  in_board (x p) -> in_board (y p) -> Forall exactArith (moveArith d p).
Proof.
  intros Hx Hy. unfold moveArith. constructor.
  - pose proof (wrap32_range d) as Hd. pose proof (canonical_range d) as Hc.
    unfold is_uint32 in Hd.
    cbn. unfold DIRECTION_MODULO, is_uint32. repeat split; try lia; reflexivity.
  - apply Forall_app. split; now apply stepArith_exact.
Qed.

Lemma arith_exact_transact sender c w :
  board_invariant w ->
  Forall exactArith (arith w) ->
  Forall exactArith (arith (fst (transact sender c w))).
Proof.
  intros Hinv Hall. destruct c as [|d pf].
  - rewrite transact_joinGame. destruct (joined w sender); cbn [fst]; [exact Hall|].
    change (arith (joinedWorld sender w))
      with (rev (joinArith (entropy w (drawn w)) (entropy w (S (drawn w))))
            ++ arith w).
    apply Forall_app. split; [|exact Hall].
    apply Forall_rev. unfold joinArith. apply Forall_app.
    split; apply randomArith_exact.
  - rewrite transact_move. destruct (joined w sender) eqn:Hj; cbn [fst]; [|exact Hall].
    destruct (inputAccepted w sender d pf); cbn [fst]; [|exact Hall].
    change (arith (movedWorld sender d w))
      with (rev (moveArith d (position w sender)) ++ arith w).
    apply Forall_app. split; [|exact Hall].
    apply Forall_rev. destruct (Hinv sender Hj). now apply moveArith_exact.
Qed.

(** C8.  All arithmetic of the position update is unsigned with a
    non-negative remainder, and no addition or subtraction of 1 the
    contract ever has evaluated wraps: in every reachable world each logged
    addition and subtraction has its left operand in [0, 10] and 1 on the
    right, and its result is the exact integer; each remainder lies in
    [0, modulus).  In particular a move feeds the step the caller's stored
    [x] and [y], both in [1, 10], and the unconditionally computed
    [current + 1] and [current - 1] are logged with their exact values. *)
Theorem arithmetic_never_wraps (rng : nat -> Z) (w : World) :
  reachable rng w ->
  Forall exactArith (arith w) /\
  (forall sender d pf,
     joined w sender = true ->
     inputAccepted w sender d pf = true ->
     let cx := x (position w sender) in
     let cy := y (position w sender) in
     exists w',
       move sender d pf w = Ok (tt, w') /\
       0 <= cx <= 10 /\ 0 <= cy <= 10 /\
       is_uint32 (cx + 1) /\ is_uint32 (cx - 1) /\
       is_uint32 (cy + 1) /\ is_uint32 (cy - 1) /\
       arith w'
       = [ mkArith OpSub cy 1 (cy - 1); mkArith OpAdd cy 1 (cy + 1);
           mkArith OpSub cx 1 (cx - 1); mkArith OpAdd cx 1 (cx + 1);
           mkArith (OpRem DIRECTION_MODULO) (d mod UINT32_MODULUS)
                   DIRECTION_MODULO (d mod 4) ] ++ arith w) /\
  (forall sender,
     joined w sender = false ->
     let boundedX := (entropy w (drawn w) mod UINT32_MODULUS) mod MAX_COORD in
     let boundedY := (entropy w (S (drawn w)) mod UINT32_MODULUS) mod MAX_COORD in
     exists w',
       joinGame sender w = Ok (tt, w') /\
       0 <= boundedX <= 9 /\ 0 <= boundedY <= 9 /\
       arith w'
       = [ mkArith OpAdd boundedY 1 (boundedY + 1);
           mkArith (OpRem MAX_COORD) (entropy w (S (drawn w)) mod UINT32_MODULUS)
                   MAX_COORD boundedY;
           mkArith OpAdd boundedX 1 (boundedX + 1);
           mkArith (OpRem MAX_COORD) (entropy w (drawn w) mod UINT32_MODULUS)
                   MAX_COORD boundedX ] ++ arith w).
Proof.
  intros Hreach. split; [|split].
  - induction Hreach as [|w sender c Hreach IH]; [constructor|].
    apply arith_exact_transact; [|exact IH].
    now apply (reachable_board_invariant rng).
  - intros sender d pf Hj Hacc cx cy.
    destruct (reachable_board_invariant rng w Hreach sender Hj) as [Hx Hy].
    fold cx in Hx. fold cy in Hy. unfold in_board, MIN_COORD, MAX_COORD in Hx, Hy.
    assert (Hu : UINT32_MODULUS = 4294967296) by reflexivity.
    exists (movedWorld sender d w). split; [now apply move_run|].
    unfold is_uint32. repeat (split; [lia|]).
    change (arith (movedWorld sender d w))
      with (rev (moveArith d (position w sender)) ++ arith w).
    f_equal. unfold moveArith, stepArith. fold cx cy. cbn [rev app].
    rewrite !wrap32_small by lia. rewrite canonical_mod4. reflexivity.
  - intros sender Hj boundedX boundedY.
    exists (joinedWorld sender w). split; [now apply joinGame_run|].
    destruct (coordinateOf_shift (entropy w (drawn w))) as [Hcx Hbx].
    destruct (coordinateOf_shift (entropy w (S (drawn w)))) as [Hcy Hby].
    split; [exact Hbx|]. split; [exact Hby|].
    change (arith (joinedWorld sender w))
      with (rev (joinArith (entropy w (drawn w)) (entropy w (S (drawn w))))
            ++ arith w).
    f_equal. unfold joinArith, randomArith. cbn [rev app].
    rewrite Hcx, Hcy. reflexivity.
Qed.

Lemma arithmetic_never_wraps_witness :
  let w := runAll [(7%N, CallJoinGame); (7%N, CallMove 1 someProof)]
                  (genesis (fun n => 9 - 6 * Z.of_nat n) lenient) in
  Forall exactArith (arith w) /\ length (arith w) = 9%nat.
Proof.
  intros w.
  assert (Hreach : reachable (fun n => 9 - 6 * Z.of_nat n) w)
    by (unfold w; cbn [runAll]; repeat apply reach_transact; apply reach_genesis).
  split.
  - exact (proj1 (arithmetic_never_wraps _ w Hreach)).
  - vm_compute. reflexivity.
Defined.


(** C10.  For every 32-bit value of [current], on or off the board, and
    every pair of flags, [_applyStep] returns [current], or [current + 1]
    with [current < 10], or [current - 1] with [current > 1]: never a
    wrapped candidate.  A decrement at [current <= 1] and an increment at
    [current >= 10] return [current]; the wrapped [0 - 1] and
    [(2^32 - 1) + 1] are computed and not selected. *)
Theorem step_never_returns_wrapped_candidate
    (current : Z) (increment decrement : bool) (w : World) :
  is_uint32 current ->
  exists r w',
    _applyStep current increment decrement w = Ok (r, w') /\
    (r = current \/
     (r = current + 1 /\ current < MAX_COORD) \/
     (r = current - 1 /\ MIN_COORD < current)) /\
    (decrement = true -> current <= MIN_COORD -> r = current) /\
    (increment = true -> decrement = false -> MAX_COORD <= current -> r = current) /\
    valueOf (stepCandidates 0 w) = Some (1, UINT32_MODULUS - 1) /\
    valueOf (stepCandidates (UINT32_MODULUS - 1) w) = Some (0, UINT32_MODULUS - 2) /\
    (current = 0 -> r <> UINT32_MODULUS - 1) /\
    (current = UINT32_MODULUS - 1 -> r <> 0).
Proof.
  unfold is_uint32. intros Hc.
  exists (stepValue current increment decrement),
    (logged stepOps (stepArith current) w).
  split; [apply _applyStep_run|].
  assert (Hu : UINT32_MODULUS = 4294967296) by reflexivity.
  assert (Hv : stepValue current increment decrement
               = if decrement then (if current <=? 1 then current else current - 1)
                 else if increment then (if current >=? 10 then current else current + 1)
                 else current).
  { destruct decrement; [|destruct increment].
    - now apply stepValue_dec.
    - now apply stepValue_inc.
    - apply stepValue_idle. }
  rewrite Hv. unfold MIN_COORD, MAX_COORD. rewrite Z.geb_leb.
  repeat match goal with |- _ /\ _ => split end; try reflexivity;
    destruct decrement, increment, (Z.leb_spec current 1), (Z.leb_spec 10 current);
    try lia; try discriminate.
Qed.

Lemma step_never_returns_wrapped_candidate_witness :
  (exists w', _applyStep 0 false true (genesis (fun _ => 0) lenient) = Ok (0, w')) /\
  (exists w', _applyStep 4294967295 true false (genesis (fun _ => 0) lenient)
              = Ok (4294967295, w')).
Proof.
  split.
  - destruct (step_never_returns_wrapped_candidate 0 false true (genesis (fun _ => 0) lenient))
      as [r [w' [Hrun [_ [Hdec _]]]]].
    + unfold is_uint32, UINT32_MODULUS. lia.
    + exists w'. rewrite Hrun, Hdec; [reflexivity | reflexivity | unfold MIN_COORD; lia].
  - destruct (step_never_returns_wrapped_candidate 4294967295 true false
                (genesis (fun _ => 0) lenient)) as [r [w' [Hrun [_ [_ [Hinc _]]]]]].
    + unfold is_uint32, UINT32_MODULUS. lia.
    + exists w'. rewrite Hrun, Hinc;
        [reflexivity | reflexivity | reflexivity | unfold MAX_COORD; lia].
Defined.

(** ** Further properties of the contract *)

Lemma joined_transact_mono sender c w player :
  joined w player = true -> joined (fst (transact sender c w)) player = true.
Proof.
  intros Hj. destruct c as [|d pf].
  - rewrite transact_joinGame. destruct (joined w sender) eqn:Hs; cbn [fst]; [exact Hj|].
    destruct (decide (sender = player)) as [->|Hne].
    + apply joined_joinedWorld_self.
    + now rewrite joined_joinedWorld_other.
  - rewrite transact_move.
    destruct (joined w sender); try destruct (inputAccepted w sender d pf);
      cbn [fst]; exact Hj.
Qed.

(** X1.  The joined flag is never cleared: a player that has joined is still
    joined after any history of joins and moves, by anyone. *)
Theorem joined_is_permanent (txs : list (address * Call)) (w : World) (player : address) :
  joined w player = true -> joined (runAll txs w) player = true.
Proof.
  revert w. induction txs as [|[sender c] rest IH]; intros w Hj; cbn [runAll].
  - exact Hj.
  - apply IH. now apply joined_transact_mono.
Qed.

Lemma joined_is_permanent_witness :
  let w := fst (transact 7%N CallJoinGame (genesis (fun n => Z.of_nat n) lenient)) in
  joined (runAll [(8%N, CallJoinGame); (7%N, CallMove 1 someProof); (7%N, CallJoinGame)] w) 7%N
  = true.
Proof.
  intros w. apply joined_is_permanent. vm_compute. reflexivity.
Defined.

(** X2.  Joining twice is joining once: whatever the world, a second
    [joinGame] of the same sender reverts with "Player already joined" and
    the world is the one the first call left. *)
Theorem join_twice_is_join_once (w : World) (sender : address) :
  transact sender CallJoinGame (fst (transact sender CallJoinGame w))
  = (fst (transact sender CallJoinGame w), Reverted AlreadyJoined).
Proof.
  rewrite (transact_joinGame sender (fst _)).
  assert (Hj : joined (fst (transact sender CallJoinGame w)) sender = true).
  { rewrite transact_joinGame. destruct (joined w sender) eqn:Hs; cbn [fst].
    - exact Hs.
    - apply joined_joinedWorld_self. }
  now rewrite Hj.
Qed.

(** Reachable worlds grow by successful joins and successful moves only. *)
Lemma reachable_grow (rng : nat -> Z) (P : World -> Prop) :
  (forall verifier, P (genesis rng verifier)) ->
  (forall w sender, reachable rng w -> P w -> joined w sender = false ->
     P (joinedWorld sender w)) ->
  (forall w sender d, reachable rng w -> P w -> joined w sender = true ->
     P (movedWorld sender d w)) ->
  forall w, reachable rng w -> P w.
Proof.
  intros Hgen Hjoin Hmove w Hreach.
  induction Hreach as [|w sender c Hreach IH]; [apply Hgen|].
  destruct c as [|d pf].
  - rewrite transact_joinGame. destruct (joined w sender) eqn:Hj; cbn [fst]; auto.
  - rewrite transact_move.
    destruct (joined w sender) eqn:Hj; try destruct (inputAccepted w sender d pf);
      cbn [fst]; auto.
Qed.

Lemma storage_shape (rng : nat -> Z) (w : World) :
  reachable rng w ->
  forall player,
    (_hasJoined w !! player = Some true /\ is_Some (_positions w !! player)) \/
    (_hasJoined w !! player = None /\ _positions w !! player = None).
Proof.
  intros Hreach. induction Hreach as [| w sender _ IH _ | w sender d _ IH Hj]
    using reachable_grow; intros player.
  - right. split; apply lookup_empty.
  - unfold joinedWorld. cbn.
    destruct (decide (sender = player)) as [->|Hne].
    + left. rewrite !lookup_insert_eq. eauto.
    + rewrite !lookup_insert_ne by assumption. apply IH.
  - unfold movedWorld. cbn.
    destruct (decide (sender = player)) as [->|Hne].
    + left. rewrite lookup_insert_eq. split; [|eauto].
      destruct (IH player) as [[Hh _]|[Hh _]]; [exact Hh|].
      unfold joined in Hj. rewrite Hh in Hj. discriminate Hj.
    + rewrite lookup_insert_ne by assumption. apply IH.
Qed.

(** X3.  Storage is consistent in every reachable world: a joined player has
    the flag [true] and a stored position; a player that has not joined has
    no entry in either mapping, so that its position reads as the zero pair
    and the flag mapping never holds [false]. *)
Theorem storage_consistent (rng : nat -> Z) (w : World) (player : address) :
  reachable rng w ->
  if joined w player
  then _hasJoined w !! player = Some true /\ is_Some (_positions w !! player)
  else _hasJoined w !! player = None /\ _positions w !! player = None /\
       position w player = zeroPosition.
Proof.
  intros Hreach.
  destruct (storage_shape rng w Hreach player) as [[Hh Hp]|[Hh Hp]];
    unfold joined, position; rewrite Hh, ?Hp; cbn; auto.
Qed.

Lemma storage_consistent_witness :
  let w := fst (transact 7%N CallJoinGame (genesis (fun n => Z.of_nat n) lenient)) in
  (_hasJoined w !! 7%N = Some true /\ is_Some (_positions w !! 7%N)) /\
  (_hasJoined w !! 8%N = None /\ _positions w !! 8%N = None /\
   position w 8%N = zeroPosition).
Proof.
  intros w.
  assert (Hreach : reachable (fun n => Z.of_nat n) w)
    by (apply reach_transact, reach_genesis).
  split.
  - exact (storage_consistent _ w 7%N Hreach).
  - exact (storage_consistent _ w 8%N Hreach).
Defined.

(** X4.  The event log agrees with the storage: in every reachable world
    the newest event about a player carries exactly the player's stored
    coordinate pair, and there is no event about a player that has not
    joined. *)
Theorem events_track_positions (rng : nat -> Z) (w : World) (player : address) :
  reachable rng w ->
  lastSeen player (events w)
  = if joined w player then Some (position w player) else None.
Proof.
  intros Hreach. revert player.
  induction Hreach as [| w sender _ IH Hj | w sender d _ IH Hj]
    using reachable_grow; intros player.
  - reflexivity.
  - change (events (joinedWorld sender w))
      with (PlayerJoined sender (coordinateOf (entropy w (drawn w)))
                         (coordinateOf (entropy w (S (drawn w)))) :: events w).
    cbn [lastSeen eventPlayer eventPosition].
    destruct (N.eqb_spec sender player) as [->|Hne].
    + now rewrite joined_joinedWorld_self, position_joinedWorld_self.
    + rewrite joined_joinedWorld_other, position_joinedWorld_other by assumption.
      apply IH.
  - change (events (movedWorld sender d w))
      with (PlayerMoved sender (x (nextPosition d (position w sender)))
                        (y (nextPosition d (position w sender))) :: events w).
    cbn [lastSeen eventPlayer eventPosition]. rewrite joined_movedWorld.
    destruct (N.eqb_spec sender player) as [->|Hne].
    + now rewrite Hj, position_movedWorld_self.
    + rewrite position_movedWorld_other by assumption. apply IH.
Qed.

Lemma events_track_positions_witness :
  let w := runAll [(7%N, CallJoinGame); (8%N, CallJoinGame); (7%N, CallMove 3 someProof)]
                  (genesis (fun n => Z.of_nat n) lenient) in
  lastSeen 7%N (events w) = Some {| x := 2; y := 2 |} /\
  position w 7%N = {| x := 2; y := 2 |}.
Proof.
  intros w.
  assert (Hreach : reachable (fun n => Z.of_nat n) w)
    by (unfold w; cbn [runAll]; repeat apply reach_transact; apply reach_genesis).
  pose proof (events_track_positions _ w 7%N Hreach) as Hseen.
  assert (Hpos : position w 7%N = {| x := 2; y := 2 |}) by (vm_compute; reflexivity).
  assert (Hj : joined w 7%N = true) by (vm_compute; reflexivity).
  rewrite Hj, Hpos in Hseen. split; [exact Hseen | exact Hpos].
Defined.

(** X5.  Randomness is consumed by joins only: in every reachable world the
    number of samples drawn from the coprocessor is twice the number of
    players that have joined, which is also the number of [PlayerJoined]
    events; a move never draws. *)
Theorem samples_drawn_by_joins_only (rng : nat -> Z) (w : World) :
  reachable rng w ->
  drawn w = (2 * size (_hasJoined w))%nat /\
  length (List.filter isJoinEvent (events w)) = size (_hasJoined w) /\
  entropy w = rng.
Proof.
  intros Hreach.
  induction Hreach as [| w sender Hreach IH Hj | w sender d _ IH Hj]
    using reachable_grow.
  - repeat split.
  - destruct IH as [Hd [He Hr]].
    assert (Hnone : _hasJoined w !! sender = None).
    { destruct (storage_shape rng w Hreach sender) as [[Hh _]|[Hh _]]; [|exact Hh].
      unfold joined in Hj. rewrite Hh in Hj. discriminate Hj. }
    change (drawn (joinedWorld sender w)) with (S (S (drawn w))).
    change (entropy (joinedWorld sender w)) with (entropy w).
    change (_hasJoined (joinedWorld sender w)) with (<[sender := true]> (_hasJoined w)).
    change (events (joinedWorld sender w))
      with (PlayerJoined sender (coordinateOf (entropy w (drawn w)))
                         (coordinateOf (entropy w (S (drawn w)))) :: events w).
    rewrite map_size_insert_None by exact Hnone.
    cbn [List.filter isJoinEvent length]. rewrite Hd, He.
    repeat split; [lia | exact Hr].
  - exact IH.
Qed.

Lemma samples_drawn_by_joins_only_witness :
  let w := runAll [(7%N, CallJoinGame); (7%N, CallMove 0 someProof); (8%N, CallJoinGame);
                   (7%N, CallJoinGame); (9%N, CallMove 2 someProof)]
                  (genesis (fun n => Z.of_nat n) lenient) in
  drawn w = 4%nat /\ size (_hasJoined w) = 2%nat.
Proof.
  intros w.
  assert (Hreach : reachable (fun n => Z.of_nat n) w)
    by (unfold w; cbn [runAll]; repeat apply reach_transact; apply reach_genesis).
  destruct (samples_drawn_by_joins_only _ w Hreach) as [Hd _].
  assert (Hs : size (_hasJoined w) = 2%nat) by (vm_compute; reflexivity).
  rewrite Hs in Hd. split; [exact Hd | exact Hs].
Defined.

(** X6.  Decryption rights follow membership: in every reachable world the
    coprocessor has been asked to allow an address to decrypt if and only
    if that address has joined. *)
Theorem grants_exactly_to_joined (rng : nat -> Z) (w : World) (player : address) :
  reachable rng w ->
  In (OpAllow player) (oplog w) <-> joined w player = true.
Proof.
  intros Hreach. revert player.
  induction Hreach as [| w sender _ IH Hj | w sender d _ IH Hj]
    using reachable_grow; intros player.
  - split; [intros [] | discriminate].
  - change (oplog (joinedWorld sender w)) with (rev (joinOps sender) ++ oplog w).
    rewrite in_app_iff, <- in_rev, IH.
    destruct (decide (sender = player)) as [->|Hne].
    + rewrite joined_joinedWorld_self. split; [reflexivity|].
      intros _. left. cbn. auto 20.
    + rewrite joined_joinedWorld_other by assumption.
      split; [intros [Hin|Hjoined] | auto]; [|exact Hjoined].
      cbn in Hin.
      repeat (destruct Hin as [Hin|Hin]; [try discriminate Hin; congruence|]).
      destruct Hin.
  - change (oplog (movedWorld sender d w)) with (rev (moveOps sender) ++ oplog w).
    rewrite in_app_iff, <- in_rev, IH, joined_movedWorld.
    split; [intros [Hin|Hjoined] | auto]; [|exact Hjoined].
    cbn in Hin.
    repeat (destruct Hin as [Hin|Hin];
            [try discriminate Hin; injection Hin as <-; exact Hj|]).
    destruct Hin.
Qed.

Lemma grants_exactly_to_joined_witness :
  let w := runAll [(7%N, CallJoinGame); (8%N, CallMove 0 someProof)]
                  (genesis (fun n => Z.of_nat n) lenient) in
  In (OpAllow 7%N) (oplog w) /\ ~ In (OpAllow 8%N) (oplog w).
Proof.
  intros w.
  assert (Hreach : reachable (fun n => Z.of_nat n) w)
    by (unfold w; cbn [runAll]; repeat apply reach_transact; apply reach_genesis).
  split.
  - apply (grants_exactly_to_joined _ w 7%N Hreach). vm_compute. reflexivity.
  - intros Hin. apply (grants_exactly_to_joined _ w 8%N Hreach) in Hin.
    vm_compute in Hin. discriminate Hin.
Defined.

(** ** Moves as a walk on the board *)

Lemma runAll_app txs1 txs2 w : runAll (txs1 ++ txs2) w = runAll txs2 (runAll txs1 w).
Proof.
  revert w. induction txs1 as [|[s c] rest IH]; intros w; [reflexivity|].
  cbn [app runAll]. apply IH.
Qed.

Lemma runAll_repeat n p d pf w :
  runAll (repeat (p, CallMove d pf) n) w = repeatMove n p d pf w.
Proof.
  revert w. induction n as [|n IH]; intros w; [reflexivity|].
  cbn [repeat runAll repeatMove]. apply IH.
Qed.

Lemma nextPosition_vertical d p :
  d mod 4 = 0 \/ d mod 4 = 1 ->
  nextPosition d p = {| x := x p; y := stepValue (y p) (d mod 4 =? 0) (d mod 4 =? 1) |}.
Proof.
  intros Hd. rewrite nextPosition_code. f_equal.
  destruct Hd as [-> | ->]; reflexivity.
Qed.

Lemma nextPosition_horizontal d p :
  d mod 4 = 2 \/ d mod 4 = 3 ->
  nextPosition d p = {| x := stepValue (x p) (d mod 4 =? 3) (d mod 4 =? 2); y := y p |}.
Proof.
  intros Hd. rewrite nextPosition_code. f_equal.
  destruct Hd as [-> | ->]; reflexivity.
Qed.

Lemma position_transact_move p d pf w :
  joined w p = true ->
  position (fst (transact p (CallMove d pf) w)) p
  = if inputAccepted w p d pf then nextPosition d (position w p) else position w p.
Proof.
  intros Hj. rewrite transact_move, Hj.
  destruct (inputAccepted w p d pf); cbn [fst];
    [apply position_movedWorld_self | reflexivity].
Qed.

(** Two moves of a joined player: each one takes effect when its input is
    accepted, and is lost when it is rejected. *)
Lemma position_two_moves p d1 pf1 d2 pf2 w :
  joined w p = true ->
  position (runAll [(p, CallMove d1 pf1); (p, CallMove d2 pf2)] w) p
  = let first := if inputAccepted w p d1 pf1
                 then nextPosition d1 (position w p) else position w p in
    if inputAccepted w p d2 pf2 then nextPosition d2 first else first.
Proof.
  intros Hj. cbn [runAll].
  rewrite position_transact_move by now apply joined_transact_mono.
  rewrite inputAccepted_transact, position_transact_move by assumption.
  reflexivity.
Qed.

Lemma position_two_moves_accepted p d1 pf1 d2 pf2 w :
  joined w p = true ->
  inputAccepted w p d1 pf1 = true ->
  inputAccepted w p d2 pf2 = true ->
  position (runAll [(p, CallMove d1 pf1); (p, CallMove d2 pf2)] w) p
  = nextPosition d2 (nextPosition d1 (position w p)).
Proof.
  intros Hj H1 H2. rewrite position_two_moves by assumption.
  cbv zeta. now rewrite H1, H2.
Qed.

Lemma position_two_moves_unjoined p d1 pf1 d2 pf2 w :
  joined w p = false ->
  runAll [(p, CallMove d1 pf1); (p, CallMove d2 pf2)] w = w.
Proof.
  intros Hj. cbn [runAll]. rewrite (transact_move p d1 pf1 w), Hj. cbn [fst].
  rewrite transact_move, Hj. reflexivity.
Qed.

(** X7.  A vertical and a horizontal move commute: whichever of the two the
    player makes first, the position reached is the same, from any stored
    position. *)
Theorem cross_axis_moves_commute
    (w : World) (p : address) (dv dh : Z) (pfv pfh : bytes) :
  dv mod 4 = 0 \/ dv mod 4 = 1 ->
  dh mod 4 = 2 \/ dh mod 4 = 3 ->
  position (runAll [(p, CallMove dv pfv); (p, CallMove dh pfh)] w) p
  = position (runAll [(p, CallMove dh pfh); (p, CallMove dv pfv)] w) p.
Proof.
  intros Hv Hh. destruct (joined w p) eqn:Hj.
  - rewrite !position_two_moves by assumption. cbv zeta.
    destruct (inputAccepted w p dv pfv), (inputAccepted w p dh pfh);
      try reflexivity.
    rewrite (nextPosition_vertical dv), (nextPosition_horizontal dh) by assumption.
    rewrite (nextPosition_horizontal dh), (nextPosition_vertical dv) by assumption.
    reflexivity.
  - now rewrite !position_two_moves_unjoined.
Qed.

Lemma cross_axis_moves_commute_witness :
  let w := fst (transact 7%N CallJoinGame (genesis (fun n => 9 + Z.of_nat n) lenient)) in
  position (runAll [(7%N, CallMove 0 someProof); (7%N, CallMove 3 someProof)] w) 7%N
  = position (runAll [(7%N, CallMove 3 someProof); (7%N, CallMove 0 someProof)] w) 7%N.
Proof.
  intros w. apply cross_axis_moves_commute; [left | right]; reflexivity.
Defined.

(** X8.  A move followed by the opposite move brings the player back,
    except at the edge the first move pushes against: there the first move
    is lost and the second one takes the player one cell inwards.  The four
    inputs are ones the input verification accepts from the player. *)
Theorem opposite_moves_return_unless_at_edge
    (w : World) (p : address) (up down left right : Z) (pf : bytes) :
  joined w p = true ->
  in_board (x (position w p)) ->
  in_board (y (position w p)) ->
  up mod 4 = 0 -> down mod 4 = 1 -> left mod 4 = 2 -> right mod 4 = 3 ->
  inputAccepted w p up pf = true ->
  inputAccepted w p down pf = true ->
  inputAccepted w p left pf = true ->
  inputAccepted w p right pf = true ->
  let cx := x (position w p) in
  let cy := y (position w p) in
  let after d1 d2 := position (runAll [(p, CallMove d1 pf); (p, CallMove d2 pf)] w) p in
  after up down = {| x := cx; y := if cy =? MAX_COORD then MAX_COORD - 1 else cy |} /\
  after down up = {| x := cx; y := if cy =? MIN_COORD then MIN_COORD + 1 else cy |} /\
  after right left = {| x := if cx =? MAX_COORD then MAX_COORD - 1 else cx; y := cy |} /\
  after left right = {| x := if cx =? MIN_COORD then MIN_COORD + 1 else cx; y := cy |}.
Proof.
  intros Hj Hx Hy Hu Hd Hl Hr Hau Had Hal Har cx cy after. unfold after.
  rewrite !position_two_moves_accepted by assumption.
  rewrite !nextPosition_code, Hu, Hd, Hl, Hr. cbn [x y Z.eqb Pos.eqb].
  fold cx cy. unfold in_board, MIN_COORD, MAX_COORD in *. fold cx in Hx. fold cy in Hy.
  assert (Hrange : forall v, 0 <= v <= 11 -> 0 <= v < UINT32_MODULUS)
    by (unfold UINT32_MODULUS; lia).
  rewrite !stepValue_idle.
  rewrite (stepValue_inc cx), (stepValue_inc cy), (stepValue_dec cx), (stepValue_dec cy)
    by (apply Hrange; lia).
  rewrite !Z.geb_leb.
  repeat split; f_equal.
  - destruct (Z.leb_spec 10 cy), (Z.eqb_spec cy 10); try lia;
      rewrite stepValue_dec by (apply Hrange; lia);
      match goal with |- context [?a <=? 1] => destruct (Z.leb_spec a 1) end; lia.
  - destruct (Z.leb_spec cy 1), (Z.eqb_spec cy 1); try lia;
      rewrite stepValue_inc by (apply Hrange; lia); rewrite Z.geb_leb;
      match goal with |- context [10 <=? ?a] => destruct (Z.leb_spec 10 a) end; lia.
  - destruct (Z.leb_spec 10 cx), (Z.eqb_spec cx 10); try lia;
      rewrite stepValue_dec by (apply Hrange; lia);
      match goal with |- context [?a <=? 1] => destruct (Z.leb_spec a 1) end; lia.
  - destruct (Z.leb_spec cx 1), (Z.eqb_spec cx 1); try lia;
      rewrite stepValue_inc by (apply Hrange; lia); rewrite Z.geb_leb;
      match goal with |- context [10 <=? ?a] => destruct (Z.leb_spec 10 a) end; lia.
Qed.

Lemma opposite_moves_return_unless_at_edge_witness :
  let w := fst (transact 7%N CallJoinGame (genesis (fun n => 9 - 6 * Z.of_nat n) lenient)) in
  position w 7%N = {| x := 10; y := 4 |} /\
  position (runAll [(7%N, CallMove 3 someProof); (7%N, CallMove 2 someProof)] w) 7%N
  = {| x := 9; y := 4 |} /\
  position (runAll [(7%N, CallMove 0 someProof); (7%N, CallMove 1 someProof)] w) 7%N
  = {| x := 10; y := 4 |}.
Proof.
  intros w.
  assert (Hpos : position w 7%N = {| x := 10; y := 4 |}) by (vm_compute; reflexivity).
  destruct (opposite_moves_return_unless_at_edge w 7%N 0 1 2 3 someProof)
    as [Hud [_ [Hrl _]]]; try reflexivity.
  - rewrite Hpos. vm_compute. split; discriminate.
  - rewrite Hpos. vm_compute. split; discriminate.
  - rewrite Hpos in Hud, Hrl. split; [exact Hpos|]. split; [exact Hrl | exact Hud].
Defined.

Lemma nextPosition_distance d p :
  in_board (x p) -> in_board (y p) -> distance p (nextPosition d p) <= 1.
Proof.
  intros Hx Hy. unfold distance. rewrite nextPosition_code. cbn [x y].
  unfold in_board, MIN_COORD, MAX_COORD in *.
  assert (Hrx : 0 <= x p < UINT32_MODULUS) by (unfold UINT32_MODULUS; lia).
  assert (Hry : 0 <= y p < UINT32_MODULUS) by (unfold UINT32_MODULUS; lia).
  assert (Hd : 0 <= d mod 4 < 4) by (apply Z.mod_pos_bound; lia).
  assert (Hcode : d mod 4 = 0 \/ d mod 4 = 1 \/ d mod 4 = 2 \/ d mod 4 = 3) by lia.
  destruct Hcode as [-> | [-> | [-> | ->]]]; cbn [Z.eqb Pos.eqb];
    rewrite ?stepValue_idle, ?stepValue_inc, ?stepValue_dec by assumption;
    rewrite ?Z.geb_leb;
    repeat match goal with
    | |- context [?a <=? ?b] => destruct (Z.leb_spec a b)
    end; lia.
Qed.

Lemma position_transact_unmoved sender c w p :
  joined w p = true ->
  (sender <> p \/ c = CallJoinGame) ->
  position (fst (transact sender c w)) p = position w p.
Proof.
  intros Hj [Hne | ->].
  - destruct c as [|d pf]; [rewrite transact_joinGame | rewrite transact_move];
      destruct (joined w sender); try destruct (inputAccepted w sender d pf);
      cbn [fst]; try reflexivity.
    + now apply position_joinedWorld_other.
    + now apply position_movedWorld_other.
  - rewrite transact_joinGame. destruct (joined w sender) eqn:Hs; cbn [fst]; [reflexivity|].
    apply position_joinedWorld_other. intros ->. congruence.
Qed.

(** X9.  A player never travels faster than one cell per move: over any
    history, by any senders, the distance between a joined player's
    position before and after is at most the number of moves that player
    made in it. *)
Theorem distance_bounded_by_own_moves
    (txs : list (address * Call)) (w : World) (p : address) :
  joined w p = true ->
  in_board (x (position w p)) ->
  in_board (y (position w p)) ->
  distance (position w p) (position (runAll txs w) p) <= Z.of_nat (movesBy p txs).
Proof.
  revert w. induction txs as [|[sender c] rest IH]; intros w Hj Hx Hy.
  - cbn [runAll movesBy]. unfold distance. lia.
  - cbn [runAll].
    set (w1 := fst (transact sender c w)).
    assert (Hj1 : joined w1 p = true) by now apply joined_transact_mono.
    assert (Hstep : (distance (position w p) (position w1 p) <= 1 /\
                     in_board (x (position w1 p)) /\ in_board (y (position w1 p)) /\
                     movesBy p ((sender, c) :: rest) = S (movesBy p rest)) \/
                    (position w1 p = position w p /\
                     movesBy p ((sender, c) :: rest) = movesBy p rest)).
    { destruct c as [|d pf].
      - right. split; [|reflexivity].
        apply position_transact_unmoved; auto.
      - cbn [movesBy]. destruct (N.eqb_spec sender p) as [->|Hne].
        + left. unfold w1. rewrite position_transact_move by assumption.
          destruct (inputAccepted w p d pf).
          * destruct (nextPosition_in_board d (position w p) Hx Hy) as [Hx1 Hy1].
            split; [now apply nextPosition_distance|].
            split; [exact Hx1|]. split; [exact Hy1 | reflexivity].
          * split; [unfold distance; lia|].
            split; [exact Hx|]. split; [exact Hy | reflexivity].
        + right. split; [|reflexivity].
          apply position_transact_unmoved; auto. }
    destruct Hstep as [[Hd [Hx1 [Hy1 Hm]]] | [Hsame Hm]]; rewrite Hm.
    + specialize (IH w1 Hj1 Hx1 Hy1). unfold distance in *. lia.
    + rewrite <- Hsame. apply IH; [exact Hj1 | |]; rewrite Hsame; assumption.
Qed.

Lemma distance_bounded_by_own_moves_witness :
  let w := runAll [(7%N, CallJoinGame); (8%N, CallJoinGame)]
                  (genesis (fun n => Z.of_nat n) lenient) in
  let txs := [(7%N, CallMove 0 someProof); (8%N, CallMove 3 someProof); (7%N, CallJoinGame);
              (7%N, CallMove 3 someProof); (8%N, CallMove 3 someProof)] in
  distance (position w 7%N) (position (runAll txs w) 7%N) <= 2.
Proof.
  intros w txs.
  change 2 with (Z.of_nat (movesBy 7%N txs)).
  apply distance_bounded_by_own_moves.
  - vm_compute. reflexivity.
  - vm_compute. split; discriminate.
  - vm_compute. split; discriminate.
Defined.

Lemma inputAccepted_runAll txs w q d pf :
  inputAccepted (runAll txs w) q d pf = inputAccepted w q d pf.
Proof.
  revert w. induction txs as [|[sender c] rest IH]; intros w; [reflexivity|].
  cbn [runAll]. rewrite IH. apply inputAccepted_transact.
Qed.

Lemma position_route_leg n p d pf w :
  joined w p = true ->
  inputAccepted w p d pf = true ->
  position (runAll (repeat (p, CallMove d pf) n) w) p
  = {| x := Nat.iter n (fun v => stepValue v (d mod 4 =? 3) (d mod 4 =? 2))
                     (x (position w p));
       y := Nat.iter n (fun v => stepValue v (d mod 4 =? 0) (d mod 4 =? 1))
                     (y (position w p)) |}.
Proof. intros Hj Hacc. rewrite runAll_repeat. now apply position_repeat_code. Qed.

Lemma joined_runAll_repeat n p d pf w :
  joined (runAll (repeat (p, CallMove d pf) n) w) p = joined w p.
Proof. rewrite runAll_repeat. apply joined_repeatMove. Qed.

Lemma movesBy_app p txs1 txs2 :
  movesBy p (txs1 ++ txs2) = (movesBy p txs1 + movesBy p txs2)%nat.
Proof.
  induction txs1 as [|[s [|d pf]] rest IH]; cbn [app movesBy]; [reflexivity|exact IH|].
  destruct (s =? p)%N; cbn; now rewrite IH.
Qed.

Lemma movesBy_repeat p d pf n : movesBy p (repeat (p, CallMove d pf) n) = n.
Proof.
  induction n as [|n IH]; [reflexivity|].
  cbn [repeat movesBy]. now rewrite N.eqb_refl, IH.
Qed.

(** X10.  Every cell of the board can be reached, and in as few moves as the
    distance allows: from a joined player's position the direct route to any
    cell [(a, b)] of the board ends exactly there, and it consists of
    [|a - x| + |b - y|] moves of that player.  The route's inputs, the four
    direction codes with the proof [pf], are ones the input verification
    accepts from the player. *)
Theorem direct_route_reaches_cell (w : World) (p : address) (pf : bytes) (a b : Z) :
  joined w p = true ->
  (forall code, In code [0; 1; 2; 3] -> inputAccepted w p code pf = true) ->
  in_board (x (position w p)) ->
  in_board (y (position w p)) ->
  in_board a ->
  in_board b ->
  let target := {| x := a; y := b |} in
  let txs := route p pf (position w p) target in
  position (runAll txs w) p = target /\
  Z.of_nat (length txs) = distance (position w p) target /\
  movesBy p txs = length txs.
Proof.
  intros Hj Hacc Hx Hy Ha Hb target txs.
  unfold txs, route, target. cbn [x y].
  set (cx := x (position w p)) in *. set (cy := y (position w p)) in *.
  split; [|split].
  - rewrite !runAll_app.
    set (w1 := runAll (repeat (p, CallMove 3 pf) (Z.to_nat (a - cx))) w).
    set (w2 := runAll (repeat (p, CallMove 2 pf) (Z.to_nat (cx - a))) w1).
    set (w3 := runAll (repeat (p, CallMove 0 pf) (Z.to_nat (b - cy))) w2).
    assert (Hj1 : joined w1 p = true) by (unfold w1; now rewrite joined_runAll_repeat).
    assert (Hj2 : joined w2 p = true) by (unfold w2; now rewrite joined_runAll_repeat).
    assert (Hj3 : joined w3 p = true) by (unfold w3; now rewrite joined_runAll_repeat).
    assert (Hacc' : forall w' code, In code [0; 1; 2; 3] ->
                      inputAccepted w' p code pf = inputAccepted w p code pf ->
                      inputAccepted w' p code pf = true)
      by (intros w' code Hin ->; now apply Hacc).
    assert (Ha0 : inputAccepted w p 3 pf = true) by (apply Hacc; cbn; auto).
    assert (Ha1 : inputAccepted w1 p 2 pf = true)
      by (apply Hacc'; [cbn; auto | apply inputAccepted_runAll]).
    assert (Ha2 : inputAccepted w2 p 0 pf = true)
      by (apply Hacc'; [cbn; auto | unfold w2, w1; now rewrite !inputAccepted_runAll]).
    assert (Ha3 : inputAccepted w3 p 1 pf = true)
      by (apply Hacc'; [cbn; auto | unfold w3, w2, w1; now rewrite !inputAccepted_runAll]).
    unfold in_board, MIN_COORD, MAX_COORD in Hx, Hy, Ha, Hb.
    assert (H1 : position w1 p = {| x := Z.min 10 (cx + Z.max 0 (a - cx)); y := cy |}).
    { unfold w1. rewrite position_route_leg by assumption.
      change (3 mod 4) with 3. cbn [Z.eqb Pos.eqb].
      rewrite iter_idle, iter_increment by (unfold in_board, MIN_COORD, MAX_COORD; lia).
      unfold MAX_COORD. f_equal. lia. }
    assert (H2 : position w2 p = {| x := a; y := cy |}).
    { unfold w2. rewrite position_route_leg by assumption. rewrite H1. cbn [x y].
      change (2 mod 4) with 2. cbn [Z.eqb Pos.eqb].
      rewrite iter_idle, iter_decrement by (unfold in_board, MIN_COORD, MAX_COORD; lia).
      unfold MIN_COORD. f_equal. lia. }
    assert (H3 : position w3 p = {| x := a; y := Z.min 10 (cy + Z.max 0 (b - cy)) |}).
    { unfold w3. rewrite position_route_leg by assumption. rewrite H2. cbn [x y].
      change (0 mod 4) with 0. cbn [Z.eqb Pos.eqb].
      rewrite iter_idle, iter_increment by (unfold in_board, MIN_COORD, MAX_COORD; lia).
      unfold MAX_COORD. f_equal. lia. }
    rewrite position_route_leg by assumption. rewrite H3. cbn [x y].
    change (1 mod 4) with 1. cbn [Z.eqb Pos.eqb].
    rewrite iter_idle, iter_decrement by (unfold in_board, MIN_COORD, MAX_COORD; lia).
    unfold MIN_COORD. f_equal. lia.
  - rewrite !length_app, !repeat_length. unfold distance. cbn [x y]. fold cx cy. lia.
  - rewrite !movesBy_app, !movesBy_repeat, !length_app, !repeat_length. reflexivity.
Qed.

Lemma direct_route_reaches_cell_witness :
  let w := fst (transact 7%N CallJoinGame (genesis (fun n => 9 - 6 * Z.of_nat n) lenient)) in
  let txs := route 7%N someProof (position w 7%N) {| x := 3; y := 9 |} in
  position w 7%N = {| x := 10; y := 4 |} /\
  position (runAll txs w) 7%N = {| x := 3; y := 9 |} /\
  length txs = 12%nat.
Proof.
  intros w txs.
  assert (Hpos : position w 7%N = {| x := 10; y := 4 |}) by (vm_compute; reflexivity).
  destruct (direct_route_reaches_cell w 7%N someProof 3 9) as [Hgoal _].
  - vm_compute. reflexivity.
  - intros code _. reflexivity.
  - rewrite Hpos. vm_compute. split; discriminate.
  - rewrite Hpos. vm_compute. split; discriminate.
  - vm_compute. split; discriminate.
  - vm_compute. split; discriminate.
  - split; [exact Hpos|]. split; [exact Hgoal|]. vm_compute. reflexivity.
Defined.

(** ** The clients against the contract *)

Lemma position_after_move p d pf w :
  joined w p = true ->
  inputAccepted w p d pf = true ->
  transact p (CallMove d pf) w = (movedWorld p d w, Success) /\
  position (movedWorld p d w) p = nextPosition d (position w p).
Proof.
  intros Hj Hacc. rewrite transact_move, Hj, Hacc. split; [reflexivity|].
  apply position_movedWorld_self.
Qed.

(** X11.  The application's direction table and the contract agree: the
    code the application encrypts for a key is already canonical, and a
    move with it, once the input verification accepts the encrypted code
    and its proof from the player, takes a joined player on the board one
    cell up for [up], down for [down], left for [left] and right for
    [right], stopping at the edge; the transaction does not revert. *)
Theorem app_direction_codes_move_as_named
    (w : World) (p : address) (k : GameApp.DirectionKey) (pf : bytes) :
  joined w p = true ->
  inputAccepted w p (GameApp.directionCodes k) pf = true ->
  in_board (x (position w p)) ->
  in_board (y (position w p)) ->
  let code := GameApp.directionCodes k in
  let cx := x (position w p) in
  let cy := y (position w p) in
  code mod DIRECTION_MODULO = code /\
  snd (transact p (CallMove code pf) w) = Success /\
  position (fst (transact p (CallMove code pf) w)) p
  = match k with
    | GameApp.Up => {| x := cx; y := Z.min MAX_COORD (cy + 1) |}
    | GameApp.Down => {| x := cx; y := Z.max MIN_COORD (cy - 1) |}
    | GameApp.Left => {| x := Z.max MIN_COORD (cx - 1); y := cy |}
    | GameApp.Right => {| x := Z.min MAX_COORD (cx + 1); y := cy |}
    end.
Proof.
  intros Hj Hacc Hx Hy code cx cy.
  destruct (position_after_move p code pf w Hj Hacc) as [Htx Hpos].
  rewrite Htx. cbn [fst snd]. rewrite Hpos, nextPosition_code.
  unfold in_board, MIN_COORD, MAX_COORD, DIRECTION_MODULO in *.
  fold cx cy. fold cx in Hx. fold cy in Hy.
  assert (Hrx : 0 <= cx < UINT32_MODULUS) by (unfold UINT32_MODULUS; lia).
  assert (Hry : 0 <= cy < UINT32_MODULUS) by (unfold UINT32_MODULUS; lia).
  unfold code.
  destruct k; cbn [GameApp.directionCodes]; (split; [reflexivity|]);
    (split; [reflexivity|]);
    match goal with
    | |- context [?n mod 4] => change (n mod 4) with n
    end; cbn [Z.eqb Pos.eqb];
    rewrite ?stepValue_idle, ?stepValue_inc, ?stepValue_dec by assumption;
    rewrite ?Z.geb_leb; f_equal;
    match goal with
    | |- context [?a <=? ?b] => destruct (Z.leb_spec a b)
    end; lia.
Qed.

Lemma app_direction_codes_move_as_named_witness :
  let w := fst (transact 7%N CallJoinGame (genesis (fun n => 9 - 6 * Z.of_nat n) lenient)) in
  position w 7%N = {| x := 10; y := 4 |} /\
  position (fst (transact 7%N (CallMove (GameApp.directionCodes GameApp.Left) someProof) w)) 7%N
  = {| x := 9; y := 4 |}.
Proof.
  intros w.
  assert (Hpos : position w 7%N = {| x := 10; y := 4 |}) by (vm_compute; reflexivity).
  destruct (app_direction_codes_move_as_named w 7%N GameApp.Left someProof)
    as [_ [_ Hmove]].
  - vm_compute. reflexivity.
  - reflexivity.
  - rewrite Hpos. vm_compute. split; discriminate.
  - rewrite Hpos. vm_compute. split; discriminate.
  - rewrite Hpos in Hmove. split; [exact Hpos | exact Hmove].
Defined.

Lemma ownProperty_direction key :
  Tasks.ownProperty key Tasks.DIRECTION_MAP
  = if String.eqb "up" key then Some 0
    else if String.eqb "down" key then Some 1
    else if String.eqb "left" key then Some 2
    else if String.eqb "right" key then Some 3
    else None.
Proof. reflexivity. Qed.

Lemma ownProperty_keyword key n :
  Tasks.ownProperty key Tasks.DIRECTION_MAP = Some n <->
  exists k, key = GameApp.keyword k /\ n = GameApp.directionCodes k.
Proof.
  rewrite ownProperty_direction. split.
  - destruct (String.eqb_spec "up" key) as [<-|_];
      [intros [= <-]; exists GameApp.Up; auto|].
    destruct (String.eqb_spec "down" key) as [<-|_];
      [intros [= <-]; exists GameApp.Down; auto|].
    destruct (String.eqb_spec "left" key) as [<-|_];
      [intros [= <-]; exists GameApp.Left; auto|].
    destruct (String.eqb_spec "right" key) as [<-|_];
      [intros [= <-]; exists GameApp.Right; auto|].
    discriminate.
  - intros [k [-> ->]]. destruct k; reflexivity.
Qed.

(** X12.  The [game:move] task encrypts a number only for the four
    keywords, in any letter case, and then it is the code the application
    uses for that key; it throws "Unknown direction" exactly when the
    lower-cased argument is neither a keyword nor the name of a member that
    [DIRECTION_MAP] inherits, such as [constructor], which passes the
    [undefined] test. *)
Theorem task_encrypts_only_direction_codes (direction : string) :
  (forall n,
     Tasks.moveDirection direction = Tasks.Encrypts (Tasks.JsNumber n) <->
     exists k, Tasks.toLowerCase direction = GameApp.keyword k /\
               n = GameApp.directionCodes k) /\
  (forall message,
     Tasks.moveDirection direction = Tasks.Thrown message <->
     (forall k, Tasks.toLowerCase direction <> GameApp.keyword k) /\
     ~ In (Tasks.toLowerCase direction) Tasks.objectPrototypeNames /\
     message = "Unknown direction '" +:+ direction
               +:+ "', expected up|down|left|right") /\
  (forall name,
     Tasks.moveDirection direction = Tasks.Encrypts (Tasks.JsInherited name) ->
     name = Tasks.toLowerCase direction /\ In name Tasks.objectPrototypeNames) /\
  Tasks.moveDirection "constructor" = Tasks.Encrypts (Tasks.JsInherited "constructor").
Proof.
  set (key := Tasks.toLowerCase direction).
  assert (Hproto : forall s, existsb (String.eqb s) Tasks.objectPrototypeNames = true <->
                             In s Tasks.objectPrototypeNames).
  { intros s. rewrite existsb_exists. split.
    - intros [name [Hin Heq]]. apply String.eqb_eq in Heq. now subst.
    - intros Hin. exists s. split; [exact Hin | apply String.eqb_refl]. }
  unfold Tasks.moveDirection, Tasks.get. fold key.
  destruct (Tasks.ownProperty key Tasks.DIRECTION_MAP) as [m|] eqn:Hm.
  - apply ownProperty_keyword in Hm. destruct Hm as [k [Hk ->]].
    repeat match goal with |- _ /\ _ => split end.
    + intros n. split.
      * intros [= <-]. eauto.
      * intros [k' [Hk' ->]]. rewrite Hk in Hk'.
        destruct k, k'; try discriminate Hk'; reflexivity.
    + intros message. split; [discriminate|]. intros [Hnone _].
      exfalso. exact (Hnone k Hk).
    + discriminate.
    + reflexivity.
  - assert (Hnokey : forall k, key <> GameApp.keyword k).
    { intros k Hk.
      assert (Hsome : Tasks.ownProperty key Tasks.DIRECTION_MAP
                      = Some (GameApp.directionCodes k))
        by (apply ownProperty_keyword; eauto).
      rewrite Hm in Hsome. discriminate Hsome. }
    destruct (existsb (String.eqb key) Tasks.objectPrototypeNames) eqn:Hp.
    + apply Hproto in Hp.
      repeat match goal with |- _ /\ _ => split end.
      * intros n. split; [discriminate|]. intros [k [Hk _]]. now destruct (Hnokey k).
      * intros message. split; [discriminate|]. intros [_ [Hnot _]]. now destruct Hnot.
      * intros name [= <-]. auto.
      * reflexivity.
    + assert (Hnot : ~ In key Tasks.objectPrototypeNames).
      { intros Hin. apply Hproto in Hin. rewrite Hp in Hin. discriminate Hin. }
      repeat match goal with |- _ /\ _ => split end.
      * intros n. split; [discriminate|]. intros [k [Hk _]]. now destruct (Hnokey k).
      * intros message. split.
        -- intros [= <-]. auto.
        -- intros [_ [_ ->]]. reflexivity.
      * discriminate.
      * reflexivity.
Qed.

Example task_keywords_any_case :
  Tasks.moveDirection "RiGhT" = Tasks.Encrypts (Tasks.JsNumber 3) /\
  Tasks.moveDirection "UP" = Tasks.Encrypts (Tasks.JsNumber 0) /\
  Tasks.moveDirection "north"
  = Tasks.Thrown "Unknown direction 'north', expected up|down|left|right".
Proof. repeat split. Qed.

(** ** The rendered board *)

Lemma noDash_uint d : noDash (NilEmpty.string_of_uint d) = true.
Proof. induction d; cbn; auto. Qed.

Lemma decimal_nonneg n :
  0 <= n -> exists c rest, GameBoard.decimal n = String c rest /\
                           c <> "-"%char /\ noDash rest = true.
Proof.
  intros Hn. unfold GameBoard.decimal. destruct n as [|p|p]; [| |lia].
  - exists "0"%char, EmptyString. repeat split. discriminate.
  - cbn [Z.to_int NilZero.string_of_int]. unfold NilZero.string_of_uint.
    pose proof (noDash_uint (Pos.to_uint p)) as Hd.
    destruct (Pos.to_uint p) eqn:Hp;
      [exists "0"%char, EmptyString; repeat split; discriminate | ..];
      cbn [NilEmpty.string_of_uint] in *; cbn [noDash] in Hd;
      apply andb_prop in Hd; destruct Hd as [Hc Hrest];
      eexists _, _; (split; [reflexivity|]); (split; [discriminate | exact Hrest]).
Qed.

Lemma decimal_negative n :
  n < 0 -> exists rest, GameBoard.decimal n = String "-" rest.
Proof.
  intros Hn. unfold GameBoard.decimal. destruct n as [|p|p]; [lia|lia|].
  cbn [Z.to_int NilZero.string_of_int]. eauto.
Qed.

Lemma decimal_inj a b : GameBoard.decimal a = GameBoard.decimal b -> a = b.
Proof.
  unfold GameBoard.decimal. intros Heq.
  assert (Hnn : forall z, Z.to_int z <> Decimal.Pos Decimal.Nil /\
                          Z.to_int z <> Decimal.Neg Decimal.Nil).
  { intros [|p|p]; cbn [Z.to_int]; split; try discriminate;
      intros [= Hp]; now apply (DecimalPos.Unsigned.to_uint_nonnil p). }
  assert (Hint : Some (Z.to_int a) = Some (Z.to_int b)).
  { rewrite <- (NilZero.isi (Z.to_int a)), <- (NilZero.isi (Z.to_int b))
      by apply Hnn.
    now rewrite Heq. }
  injection Hint as Hint.
  rewrite <- (DecimalZ.of_to a), <- (DecimalZ.of_to b). now rewrite Hint.
Qed.

Lemma dash_split s1 t1 s2 t2 :
  noDash s1 = true -> noDash s2 = true ->
  s1 +:+ String "-" t1 = s2 +:+ String "-" t2 -> s1 = s2 /\ t1 = t2.
Proof.
  revert s2. induction s1 as [|c1 s1 IH]; intros [|c2 s2] H1 H2 Heq; cbn in *.
  - injection Heq as ->. auto.
  - injection Heq as <- _. cbn in H2. discriminate H2.
  - injection Heq as -> _. cbn in H1. discriminate H1.
  - injection Heq as -> Heq.
    apply andb_prop in H1. apply andb_prop in H2.
    destruct (IH s2) as [-> ->]; tauto.
Qed.

Lemma cellKey_inj a b column row :
  0 <= column ->
  GameBoard.cellKey a b = GameBoard.cellKey column row -> a = column /\ b = row.
Proof.
  intros Hc. unfold GameBoard.cellKey. intros Heq.
  destruct (decimal_nonneg column Hc) as [c [rest [Hdc [Hnd Hrest]]]].
  destruct (Z.lt_ge_cases a 0) as [Hneg|Hpos].
  - destruct (decimal_negative a Hneg) as [r Hda].
    rewrite Hda, Hdc in Heq. cbn in Heq. injection Heq as <- _. now destruct Hnd.
  - destruct (decimal_nonneg a Hpos) as [c' [rest' [Hda [Hnd' Hrest']]]].
    assert (Hs1 : noDash (GameBoard.decimal a) = true).
    { rewrite Hda. cbn. rewrite Hrest'.
      destruct (Ascii.eqb_spec c' "-"); [contradiction | reflexivity]. }
    assert (Hs2 : noDash (GameBoard.decimal column) = true).
    { rewrite Hdc. cbn. rewrite Hrest.
      destruct (Ascii.eqb_spec c "-"); [contradiction | reflexivity]. }
    destruct (dash_split _ _ _ _ Hs1 Hs2 Heq) as [Ha Hb].
    split; now apply decimal_inj.
Qed.

Lemma isActive_spec position column row :
  0 <= column ->
  GameBoard.isActive (GameBoard.highlightKey position) column row = true <->
  position = Some {| x := column; y := row |}.
Proof.
  intros Hc. destruct position as [[a b]|]; cbn [GameBoard.highlightKey GameBoard.isActive x y].
  - rewrite String.eqb_eq. split.
    + intros Heq. apply cellKey_inj in Heq; [|exact Hc]. destruct Heq as [-> ->].
      reflexivity.
    + intros [= -> ->]. reflexivity.
  - split; discriminate.
Qed.

Lemma cells_nth position i :
  (i < 100)%nat ->
  nth_error (GameBoard.cells position) i
  = Some (GameBoard.cell (GameBoard.highlightKey position)
            (Z.of_nat (i mod 10) + 1) (10 - Z.of_nat (i / 10))).
Proof.
  intros Hi.
  do 100 (destruct i as [|i]; [reflexivity|]).
  lia.
Qed.

Lemma cells_length position : length (GameBoard.cells position) = 100%nat.
Proof. reflexivity. Qed.

Lemma cells_keys position :
  map GameBoard.key (GameBoard.cells position)
  = map GameBoard.key (GameBoard.cells None).
Proof. vm_compute. reflexivity. Qed.

Lemma cells_keys_NoDup : NoDup (map GameBoard.key (GameBoard.cells None)).
Proof. refine (bool_decide_unpack _ _). vm_compute. exact I. Qed.

Lemma cell_badge position column row :
  0 <= column ->
  (GameBoard.badge (GameBoard.cell (GameBoard.highlightKey position) column row)
   = Some "You"%string <->
   position = Some {| x := column; y := row |}) /\
  (GameBoard.className (GameBoard.cell (GameBoard.highlightKey position) column row)
   = "board-cell active"%string <->
   position = Some {| x := column; y := row |}).
Proof.
  intros Hc. rewrite <- (isActive_spec position column row Hc).
  unfold GameBoard.cell. cbn [GameBoard.badge GameBoard.className].
  destruct (GameBoard.isActive _ column row); cbn; split; split;
    (reflexivity || discriminate).
Qed.

Lemma cell_grid_bounds (i : nat) :
  (i < 100)%nat ->
  in_board (Z.of_nat (i mod 10) + 1) /\ in_board (10 - Z.of_nat (i / 10)).
Proof.
  intros Hi. unfold in_board, MIN_COORD, MAX_COORD.
  pose proof (Nat.mod_upper_bound i 10 ltac:(lia)) as Hr.
  pose proof (Nat.div_mod_eq i 10) as Hq.
  set (q := (i / 10)%nat) in *. set (r := (i mod 10)%nat) in *.
  lia.
Qed.

Lemma cellIndex_grid a b :
  1 <= a <= 10 -> 1 <= b <= 10 ->
  Z.of_nat (GameBoard.cellIndex a b mod 10) + 1 = a /\
  10 - Z.of_nat (GameBoard.cellIndex a b / 10) = b /\
  (GameBoard.cellIndex a b < 100)%nat.
Proof.
  intros Ha Hb. unfold GameBoard.cellIndex.
  set (n := Z.to_nat ((10 - b) * 10 + (a - 1))).
  assert (Hm : (n mod 10 = Z.to_nat (a - 1))%nat).
  { symmetry. apply (Nat.mod_unique n 10 (Z.to_nat (10 - b))); unfold n; lia. }
  assert (Hd : (n / 10 = Z.to_nat (10 - b))%nat).
  { symmetry. apply (Nat.div_unique n 10 _ (Z.to_nat (a - 1))); unfold n; lia. }
  rewrite Hm, Hd. unfold n. lia.
Qed.

(** X13.  The board always renders 100 cells with pairwise distinct keys,
    row 10 first and column 1 first within a row.  A cell carries the "You"
    badge, and the class [active], exactly when the position handed to the
    component is that cell's column and row: a position on the board
    highlights its cell and no other, a missing position or one off the
    board highlights nothing. *)
Theorem board_highlights_exactly_the_position (position : option Position) :
  length (GameBoard.cells position) = 100%nat /\
  NoDup (map GameBoard.key (GameBoard.cells position)) /\
  (forall i c,
     nth_error (GameBoard.cells position) i = Some c ->
     let column := Z.of_nat (i mod 10) + 1 in
     let row := 10 - Z.of_nat (i / 10) in
     in_board column /\ in_board row /\
     GameBoard.coordinate c
     = GameBoard.decimal column +:+ "," +:+ GameBoard.decimal row /\
     (GameBoard.badge c = Some "You"%string <->
      position = Some {| x := column; y := row |}) /\
     (GameBoard.className c = "board-cell active"%string <->
      position = Some {| x := column; y := row |})) /\
  (forall a b,
     position = Some {| x := a; y := b |} -> in_board a -> in_board b ->
     exists c,
       nth_error (GameBoard.cells position) (GameBoard.cellIndex a b) = Some c /\
       GameBoard.badge c = Some "You"%string /\
       GameBoard.coordinate c = GameBoard.decimal a +:+ "," +:+ GameBoard.decimal b).
Proof.
  split; [apply cells_length|]. split; [rewrite cells_keys; apply cells_keys_NoDup|].
  split.
  - intros i c Hnth column row.
    assert (Hi : (i < 100)%nat).
    { rewrite <- (cells_length position). apply nth_error_Some. congruence. }
    rewrite cells_nth in Hnth by exact Hi. injection Hnth as <-.
    destruct (cell_grid_bounds i Hi) as [Hcol Hrow].
    split; [exact Hcol|]. split; [exact Hrow|]. split; [reflexivity|].
    apply cell_badge. unfold in_board, MIN_COORD in Hcol. fold column. lia.
  - intros a b -> Ha Hb. unfold in_board, MIN_COORD, MAX_COORD in Ha, Hb.
    destruct (cellIndex_grid a b Ha Hb) as [Hcol [Hrow Hi]].
    rewrite cells_nth by exact Hi.
    rewrite Hcol, Hrow. eexists. split; [reflexivity|]. split; [|reflexivity].
    apply cell_badge; [lia | reflexivity].
Qed.

Lemma nextPosition_of_key k p :
  in_board (x p) -> in_board (y p) ->
  nextPosition (GameApp.directionCodes k) p
  = match k with
    | GameApp.Up => {| x := x p; y := if y p =? 10 then 10 else y p + 1 |}
    | GameApp.Down => {| x := x p; y := if y p =? 1 then 1 else y p - 1 |}
    | GameApp.Left => {| x := if x p =? 1 then 1 else x p - 1; y := y p |}
    | GameApp.Right => {| x := if x p =? 10 then 10 else x p + 1; y := y p |}
    end.
Proof.
  unfold in_board, MIN_COORD, MAX_COORD. intros Hx Hy.
  assert (Hrx : 0 <= x p < UINT32_MODULUS) by (unfold UINT32_MODULUS; lia).
  assert (Hry : 0 <= y p < UINT32_MODULUS) by (unfold UINT32_MODULUS; lia).
  rewrite nextPosition_code.
  destruct k; cbn [GameApp.directionCodes];
    match goal with
    | |- context [?n mod 4] => change (n mod 4) with n
    end; cbn [Z.eqb Pos.eqb];
    rewrite ?stepValue_idle, ?stepValue_inc, ?stepValue_dec by assumption;
    rewrite ?Z.geb_leb; f_equal;
    match goal with
    | |- context [?a <=? ?b] => destruct (Z.leb_spec a b)
    end;
    match goal with
    | |- context [?a =? ?b] => destruct (Z.eqb_spec a b)
    end; lia.
Qed.

Lemma cellIndex_of_grid (i : nat) :
  (i < 100)%nat ->
  GameBoard.cellIndex (Z.of_nat (i mod 10) + 1) (10 - Z.of_nat (i / 10)) = i.
Proof.
  intros Hi. unfold GameBoard.cellIndex.
  pose proof (Nat.mod_upper_bound i 10 ltac:(lia)) as Hr.
  pose proof (Nat.div_mod_eq i 10) as Hq.
  set (q := (i / 10)%nat) in *. set (r := (i mod 10)%nat) in *.
  lia.
Qed.

(** X14.  From the contract to the screen: for a joined player in a
    reachable world, after a move with the application's code for a key
    that the input verification accepts from the player,
    the board given the new position highlights one cell and no other, and
    that cell is one row earlier in the list for [up], one row later for
    [down], one place earlier for [left] and one place later for [right],
    or the same cell when the player already stood at that edge. *)
Theorem move_shifts_the_highlighted_cell
    (rng : nat -> Z) (w : World) (p : address) (k : GameApp.DirectionKey) (pf : bytes) :
  reachable rng w ->
  joined w p = true ->
  inputAccepted w p (GameApp.directionCodes k) pf = true ->
  let before := position w p in
  let after :=
    position (fst (transact p (CallMove (GameApp.directionCodes k) pf) w)) p in
  let i := Z.of_nat (GameBoard.cellIndex (x before) (y before)) in
  let j := GameBoard.cellIndex (x after) (y after) in
  (exists c, nth_error (GameBoard.cells (Some after)) j = Some c /\
             GameBoard.badge c = Some "You"%string) /\
  (forall j' c', nth_error (GameBoard.cells (Some after)) j' = Some c' ->
                 GameBoard.badge c' = Some "You"%string -> j' = j) /\
  Z.of_nat j
  = match k with
    | GameApp.Up => if y before =? 10 then i else i - 10
    | GameApp.Down => if y before =? 1 then i else i + 10
    | GameApp.Left => if x before =? 1 then i else i - 1
    | GameApp.Right => if x before =? 10 then i else i + 1
    end.
Proof.
  intros Hreach Hj Hacc before after i j.
  destruct (reachable_board_invariant rng w Hreach p Hj) as [Hx Hy].
  fold before in Hx, Hy.
  assert (Hafter : after = nextPosition (GameApp.directionCodes k) before).
  { unfold after. rewrite position_transact_move, Hacc by assumption.
    reflexivity. }
  destruct (nextPosition_in_board (GameApp.directionCodes k) before Hx Hy)
    as [Hx' Hy'].
  rewrite <- Hafter in Hx', Hy'.
  destruct (cellIndex_grid (x after) (y after) Hx' Hy') as [Hcol [Hrow Hlt]].
  fold j in Hcol, Hrow, Hlt.
  split; [|split].
  - rewrite cells_nth by exact Hlt. eexists. split; [reflexivity|].
    apply cell_badge; [lia|]. rewrite Hcol, Hrow. now destruct after.
  - intros j' c' Hnth Hbadge.
    assert (Hlt' : (j' < 100)%nat).
    { rewrite <- (cells_length (Some after)). apply nth_error_Some. congruence. }
    rewrite cells_nth in Hnth by exact Hlt'.
    assert (Hc : c' = GameBoard.cell (GameBoard.highlightKey (Some after))
                        (Z.of_nat (j' mod 10) + 1) (10 - Z.of_nat (j' / 10)))
      by congruence.
    rewrite Hc in Hbadge.
    destruct (cell_grid_bounds j' Hlt') as [Hcb _].
    unfold in_board, MIN_COORD in Hcb.
    assert (Hge : 0 <= Z.of_nat (j' mod 10) + 1) by lia.
    apply (proj1 (cell_badge (Some after) _ (10 - Z.of_nat (j' / 10)) Hge))
      in Hbadge.
    assert (Hxy : x after = Z.of_nat (j' mod 10) + 1 /\
                  y after = 10 - Z.of_nat (j' / 10)).
    { injection Hbadge as ->. split; reflexivity. }
    destruct Hxy as [Hxa Hya].
    unfold j. rewrite Hxa, Hya. symmetry. now apply cellIndex_of_grid.
  - unfold j, i. rewrite Hafter, nextPosition_of_key by assumption.
    unfold in_board, MIN_COORD, MAX_COORD in Hx, Hy. unfold GameBoard.cellIndex.
    destruct k; cbn [x y];
      match goal with
      | |- context [?a =? ?b] => destruct (Z.eqb_spec a b)
      end; lia.
Qed.

Lemma move_shifts_the_highlighted_cell_witness :
  let rng := fun n : nat => 9 - 6 * Z.of_nat n in
  let w := fst (transact 7%N CallJoinGame (genesis rng lenient)) in
  let w' := fst (transact 7%N (CallMove (GameApp.directionCodes GameApp.Up) someProof) w) in
  position w 7%N = {| x := 10; y := 4 |} /\
  GameBoard.cellIndex (x (position w 7%N)) (y (position w 7%N)) = 69%nat /\
  Z.of_nat (GameBoard.cellIndex (x (position w' 7%N)) (y (position w' 7%N))) = 59.
Proof.
  intros rng w w'.
  assert (Hpos : position w 7%N = {| x := 10; y := 4 |}) by (vm_compute; reflexivity).
  destruct (move_shifts_the_highlighted_cell rng w 7%N GameApp.Up someProof)
    as [_ [_ Hidx]].
  - apply reach_transact, reach_genesis.
  - vm_compute. reflexivity.
  - reflexivity.
  - fold w' in Hidx. rewrite Hpos in Hidx. cbn [x y] in Hidx.
    split; [exact Hpos|]. split; [rewrite Hpos; reflexivity|]. exact Hidx.
Defined.

Lemma storage_after_move p d pf w :
  _hasJoined (fst (transact p (CallMove d pf) w)) = _hasJoined w /\
  _positions (fst (transact p (CallMove d pf) w))
  = if joined w p && inputAccepted w p d pf
    then <[p := nextPosition d (position w p)]> (_positions w)
    else _positions w.
Proof.
  rewrite transact_move.
  destruct (joined w p); try destruct (inputAccepted w p d pf);
    cbn [fst andb]; split; reflexivity.
Qed.

(** X15.  Moves of two different players commute on the storage: in either
    order the two transactions leave the same flags and the same stored
    positions, whether or not each of the players has joined. *)
Theorem moves_of_different_players_commute
    (w : World) (p q : address) (dp dq : Z) (pfp pfq : bytes) :
  p <> q ->
  let pq := runAll [(p, CallMove dp pfp); (q, CallMove dq pfq)] w in
  let qp := runAll [(q, CallMove dq pfq); (p, CallMove dp pfp)] w in
  _positions pq = _positions qp /\ _hasJoined pq = _hasJoined qp.
Proof.
  intros Hpq pq qp. unfold pq, qp. cbn [runAll].
  set (wp := fst (transact p (CallMove dp pfp) w)).
  set (wq := fst (transact q (CallMove dq pfq) w)).
  destruct (storage_after_move p dp pfp w) as [Hhp Hpp].
  destruct (storage_after_move q dq pfq w) as [Hhq Hpq'].
  destruct (storage_after_move q dq pfq wp) as [Hhpq Hppq].
  destruct (storage_after_move p dp pfp wq) as [Hhqp Hpqp].
  fold wp in Hhp, Hpp. fold wq in Hhq, Hpq'.
  assert (Hjq : joined wp q = joined w q) by (unfold joined; now rewrite Hhp).
  assert (Hjp : joined wq p = joined w p) by (unfold joined; now rewrite Hhq).
  assert (Haq : inputAccepted wp q dq pfq = inputAccepted w q dq pfq)
    by apply inputAccepted_transact.
  assert (Hap : inputAccepted wq p dp pfp = inputAccepted w p dp pfp)
    by apply inputAccepted_transact.
  assert (Hposq : position wp q = position w q).
  { unfold position. rewrite Hpp.
    destruct (joined w p && inputAccepted w p dp pfp); [|reflexivity].
    now rewrite lookup_insert_ne. }
  assert (Hposp : position wq p = position w p).
  { unfold position. rewrite Hpq'.
    destruct (joined w q && inputAccepted w q dq pfq); [|reflexivity].
    rewrite lookup_insert_ne; [reflexivity | congruence]. }
  split.
  - rewrite Hppq, Hpqp, Hjq, Hjp, Haq, Hap, Hposq, Hposp, Hpp, Hpq'.
    destruct (joined w p && inputAccepted w p dp pfp),
             (joined w q && inputAccepted w q dq pfq); try reflexivity.
    apply insert_insert_ne. congruence.
  - now rewrite Hhpq, Hhqp, Hhp, Hhq.
Qed.

Lemma moves_of_different_players_commute_witness :
  let w := runAll [(7%N, CallJoinGame); (8%N, CallJoinGame)]
                  (genesis (fun n => Z.of_nat n) lenient) in
  _positions (runAll [(7%N, CallMove 0 someProof); (8%N, CallMove 3 someProof)] w)
  = _positions (runAll [(8%N, CallMove 3 someProof); (7%N, CallMove 0 someProof)] w).
Proof.
  intros w. apply moves_of_different_players_commute. discriminate.
Defined.
